(** * peakdetect: z-score peak detection over a sliding window

    A shallow embedding of the Go package [peakdetect] (the [peakDetector]
    and its [movingMeanStdDev] estimator) together with the properties of
    its specification.

    The Go code computes on [float64].  The embedding is written once, over
    an interface [Arith] of the arithmetic the code uses, and is read at two
    instances: [exact] (the real numbers, the "exact arithmetic" of the
    specification) and [binary64] (IEEE 754 binary64, Go's [float64], on
    which the definitions evaluate). *)

From Stdlib Require Import PrimFloat.
From Stdlib Require Uint63 SpecFloat FloatOps FloatAxioms.
From Stdlib Require Import ZArith NArith Reals Lra Lia.
From stdpp Require Import base option list.

(** ** Machine integers *)

(** [uint] is a 64-bit unsigned integer; [x++] wraps around. *)
Definition uint_modulus : N := 2 ^ 64.

Definition uint_incr (x : N) : N := ((x + 1) mod uint_modulus)%N.

(** [uint(len(s))]: the length of a slice is a non-negative [int], so the
    conversion to [uint] keeps its value. *)
Definition uint_of_len {A : Type} (s : list A) : N := N.of_nat (length s).

(** ** The arithmetic of [float64] *)

Class Arith (F : Type) : Type := {
  fadd : F -> F -> F;
  fsub : F -> F -> F;
  fmul : F -> F -> F;
  fdiv : F -> F -> F;
  (** [math.Sqrt] and [math.Abs] *)
  fsqrt : F -> F;
  fabs : F -> F;
  (** the comparison [a > b] *)
  fgt : F -> F -> bool;
  (** the conversion [float64(n)] of a [uint] *)
  of_uint : N -> F;
  (** the constants [0] and [1] *)
  fzero : F;
  fone : F
}.

Declare Scope arith_scope.
Delimit Scope arith_scope with arith.
Infix "+" := fadd : arith_scope.
Infix "-" := fsub : arith_scope.
Infix "*" := fmul : arith_scope.
Infix "/" := fdiv : arith_scope.
Infix ">?" := fgt (at level 70, no associativity) : arith_scope.

(** Exact arithmetic: the real numbers. *)
Definition Rgtb (a b : R) : bool := if Rgt_dec a b then true else false.

#[export] Instance exact : Arith R := {|
  fadd := Rplus;
  fsub := Rminus;
  fmul := Rmult;
  fdiv := Rdiv;
  fsqrt := sqrt;
  fabs := Rabs;
  fgt := Rgtb;
  of_uint n := IZR (Z.of_N n);
  fzero := 0%R;
  fone := 1%R
|}.

(** IEEE 754 binary64, the [float64] of Go, each operation rounded on its
    own (no fused multiply-add).  [a > b] is [b < a], false as soon as one
    side is NaN.  [float64(n)] is taken on [n] below [2^63], which every
    slice length is. *)
#[export] Instance binary64 : Arith float := {|
  fadd := PrimFloat.add;
  fsub := PrimFloat.sub;
  fmul := PrimFloat.mul;
  fdiv := PrimFloat.div;
  fsqrt := PrimFloat.sqrt;
  fabs := PrimFloat.abs;
  fgt a b := PrimFloat.ltb b a;
  of_uint n := PrimFloat.of_uint63 (Uint63.of_Z (Z.of_N n));
  fzero := PrimFloat.zero;
  fone := PrimFloat.one
|}.

(** ** Signals and errors *)

(** [type Signal int8] with its three constants. *)
Inductive Signal : Set :=
| SignalNegative
| SignalNeutral
| SignalPositive.

Definition Signal_value (s : Signal) : Z :=
  match s with
  | SignalNegative => (-1)%Z
  | SignalNeutral => 0%Z
  | SignalPositive => 1%Z
  end.

#[export] Instance Signal_eq_dec : EqDecision Signal.
Proof. solve_decision. Defined.

(** The error values of the package; [errors.Is] sees through the wrapping
    done by [fmt.Errorf] with [%w]. *)
Inductive error : Set :=
| ErrInvalidInitialValues.

(** ** The detector *)

Section Detector.
Context {F : Type} `{Arith F}.
Local Open Scope arith_scope.

(** [movingMeanStdDev]: the sliding window and its running statistics. *)
Record movingMeanStdDev : Type := MovingMeanStdDev {
  cache : list F;
  cacheLen : F;
  cacheLenU : N;
  mIndex : N;
  mPrevMean : F;
  prevVariance : F
}.

(** [peakDetector]; [stats] is the field [movingMeanStdDev], a pointer to
    an estimator that the detector alone owns. *)
Record peakDetector : Type := PeakDetector {
  index : N;
  influence : F;
  lag : N;
  stats : movingMeanStdDev;
  prevMean : F;
  prevStdDev : F;
  prevValue : F;
  threshold : F
}.

(** The zero value [&movingMeanStdDev{}]. *)
Definition zero_movingMeanStdDev : movingMeanStdDev :=
  {| cache := []; cacheLen := fzero; cacheLenU := 0%N; mIndex := 0%N;
     mPrevMean := fzero; prevVariance := fzero |}.

Definition NewPeakDetector : peakDetector :=
  {| index := 0%N; influence := fzero; lag := 0%N;
     stats := zero_movingMeanStdDev;
     prevMean := fzero; prevStdDev := fzero; prevValue := fzero;
     threshold := fzero |}.

(** The loop of [initialize]: [i] runs from [2] to [cacheLenU] and reads
    [initialValues[i-1]], that is, the values after the first, in order.
    It returns the final [mean] and [sumOfSquares]. *)
Fixpoint initialize_loop (i : N) (prevMean sumOfSquares : F)
    (values : list F) : F * F :=
  match values with
  | [] => (prevMean, sumOfSquares)
  | value :: values' =>
      let mean := prevMean + (value - prevMean) / of_uint i in
      let sumOfSquares := sumOfSquares + (value - prevMean) * (value - mean) in
      initialize_loop (N.succ i) mean sumOfSquares values'
  end.

(** [initialize]; [None] is the run-time panic of [initialValues[0]] on an
    empty slice.  The field [index] is not assigned. *)
Definition initialize (m : movingMeanStdDev) (initialValues : list F)
    : option (movingMeanStdDev * (F * F)) :=
  let cacheLenU' := uint_of_len initialValues in
  let cacheLen' := of_uint cacheLenU' in
  match initialValues with
  | [] => None
  | first :: rest =>
      let '(mean, sumOfSquares) := initialize_loop 2%N first fzero rest in
      let variance := sumOfSquares / cacheLen' in
      Some ({| cache := initialValues; cacheLen := cacheLen';
               cacheLenU := cacheLenU'; mIndex := mIndex m;
               mPrevMean := mean; prevVariance := variance |},
            (mean, fsqrt variance))
  end.

(** [next]; [None] is the run-time panic of [m.cache[m.index]] when the
    index is out of range. *)
Definition next (m : movingMeanStdDev) (value : F)
    : option (movingMeanStdDev * (F * F)) :=
  match cache m !! N.to_nat (mIndex m) with
  | None => None
  | Some outOfWindow =>
      let cache' := <[N.to_nat (mIndex m) := value]> (cache m) in
      let index' := uint_incr (mIndex m) in
      let index' := if (index' =? cacheLenU m)%N then 0%N else index' in
      let newMean := mPrevMean m + (value - outOfWindow) / cacheLen m in
      let variance :=
        prevVariance m
        + (value - newMean + outOfWindow - mPrevMean m)
          * (value - outOfWindow) / cacheLen m in
      Some ({| cache := cache'; cacheLen := cacheLen m;
               cacheLenU := cacheLenU m; mIndex := index';
               mPrevMean := newMean; prevVariance := variance |},
            (newMean, fsqrt variance))
  end.

(** [Initialize]: the detector after the call and the returned error
    ([None] for [nil]).  The outer [option] is a panic, which the guard on
    the length excludes. *)
Definition Initialize (p : peakDetector) (influence' threshold' : F)
    (initialValues : list F) : option (peakDetector * option error) :=
  let lag' := uint_of_len initialValues in
  if (lag' =? 0)%N then
    Some ({| index := index p; influence := influence p; lag := lag';
             stats := stats p; prevMean := prevMean p;
             prevStdDev := prevStdDev p; prevValue := prevValue p;
             threshold := threshold p |},
          Some ErrInvalidInitialValues)
  else
    '(m', (mean, stdDev)) ← initialize (stats p) initialValues;
    last ← initialValues !! N.to_nat (lag' - 1);
    Some ({| index := index p; influence := influence'; lag := lag';
             stats := m'; prevMean := mean; prevStdDev := stdDev;
             prevValue := last; threshold := threshold' |},
          None).

(** The branch of [Next] on the incoming value: the signal, and the value
    that goes into the window. *)
Definition classify (p : peakDetector) (value : F) : Signal * F :=
  if fabs (value - prevMean p) >? threshold p * prevStdDev p then
    (if value >? prevMean p then SignalPositive else SignalNegative,
     influence p * value + (fone - influence p) * prevValue p)
  else
    (SignalNeutral, value).

(** [Next]: the detector after the call and the signal; [None] when
    [next] panics. *)
Definition Next (p : peakDetector) (value : F)
    : option (peakDetector * Signal) :=
  let index' := uint_incr (index p) in
  let index' := if (index' =? lag p)%N then 0%N else index' in
  let '(signal, value) := classify p value in
  '(m', (mean, stdDev)) ← next (stats p) value;
  Some ({| index := index'; influence := influence p; lag := lag p;
           stats := m'; prevMean := mean; prevStdDev := stdDev;
           prevValue := value; threshold := threshold p |},
        signal).

(** The loop of [NextBatch]: [signals[i] = p.Next(v)] for the values from
    position [i] on. *)
Fixpoint NextBatch_loop (p : peakDetector) (signals : list Signal)
    (i : nat) (values : list F) : option (peakDetector * list Signal) :=
  match values with
  | [] => Some (p, signals)
  | v :: values' =>
      '(p', s) ← Next p v;
      NextBatch_loop p' (<[i := s]> signals) (S i) values'
  end.

(** [NextBatch]; [make([]Signal, len(values))] is filled with the zero
    value of [Signal], which is [SignalNeutral]. *)
Definition NextBatch (p : peakDetector) (values : list F)
    : option (peakDetector * list Signal) :=
  NextBatch_loop p (replicate (length values) SignalNeutral) 0 values.

End Detector.

Arguments movingMeanStdDev F : clear implicits.
Arguments peakDetector F : clear implicits.

(** ** Runs of calls *)

Section Runs.
Context {F : Type} `{Arith F}.

(** Successive calls of [next], one per value. *)
Fixpoint nexts (m : movingMeanStdDev F) (values : list F)
    : option (movingMeanStdDev F) :=
  match values with
  | [] => Some m
  | v :: values' => '(m', _) ← next m v; nexts m' values'
  end.

(** Successive calls of [Next], one per value, with the signals in the
    order of the calls. *)
Fixpoint Next_seq (p : peakDetector F) (values : list F)
    : option (peakDetector F * list Signal) :=
  match values with
  | [] => Some (p, [])
  | v :: values' =>
      '(p', s) ← Next p v;
      '(p'', signals) ← Next_seq p' values';
      Some (p'', s :: signals)
  end.

(** The recorded lengths are those of the window and the cursor is
    inside it. *)
Definition in_window (m : movingMeanStdDev F) : Prop :=
  cacheLenU m = uint_of_len (cache m)
  ∧ cacheLen m = of_uint (cacheLenU m)
  ∧ (mIndex m < cacheLenU m)%N.

(** A detector that is ready for [Next]: its window is in order and the
    mean and standard deviation it keeps are those of its estimator. *)
Definition Ready (p : peakDetector F) : Prop :=
  in_window (stats p)
  ∧ prevMean p = mPrevMean (stats p)
  ∧ prevStdDev p = fsqrt (prevVariance (stats p)).

(** Two detectors that agree on everything but the counters [index] and
    [lag]. *)
Definition same_window (p q : peakDetector F) : Prop :=
  influence p = influence q
  ∧ stats p = stats q
  ∧ prevMean p = prevMean q
  ∧ prevStdDev p = prevStdDev q
  ∧ prevValue p = prevValue q
  ∧ threshold p = threshold q.

End Runs.

(** ** Mean and variance of a list of reals *)

Definition Rsum (l : list R) : R := foldr Rplus 0%R l.

Definition true_mean (l : list R) : R := (Rsum l / INR (length l))%R.

(** Population variance: the divisor is the number of values. *)
Definition true_variance (l : list R) : R :=
  (Rsum ((λ x, (x - true_mean l) * (x - true_mean l)) <$> l)
   / INR (length l))%R.

Definition Rsumsq (l : list R) : R := Rsum ((λ x, x * x) <$> l)%R.

(** The statistics stored in an estimator over the reals are those of its
    window. *)
Definition stats_exact (m : movingMeanStdDev R) : Prop :=
  cacheLen m = INR (length (cache m))
  ∧ mPrevMean m = true_mean (cache m)
  ∧ prevVariance m = true_variance (cache m).

(** ** The specification's wording of some results *)



(** The opposite signal. *)
Definition flip (s : Signal) : Signal :=
  match s with
  | SignalNegative => SignalPositive
  | SignalNeutral => SignalNeutral
  | SignalPositive => SignalNegative
  end.

(** [n] is the estimator [m] run on the negated values. *)
Definition mirror_stats (m n : movingMeanStdDev R) : Prop :=
  cache n = Ropp <$> cache m
  ∧ cacheLen n = cacheLen m
  ∧ cacheLenU n = cacheLenU m
  ∧ mIndex n = mIndex m
  ∧ mPrevMean n = (- mPrevMean m)%R
  ∧ prevVariance n = prevVariance m.

(** [q] is the detector [p] run on the negated values. *)
Definition mirror (p q : peakDetector R) : Prop :=
  index q = index p
  ∧ influence q = influence p
  ∧ lag q = lag p
  ∧ mirror_stats (stats p) (stats q)
  ∧ prevMean q = (- prevMean p)%R
  ∧ prevStdDev q = prevStdDev p
  ∧ prevValue q = (- prevValue p)%R
  ∧ threshold q = threshold p.

(** ** Sample states *)

(** A two-value window on binary64 with its cursor on the last slot. *)
Definition sample_stats : movingMeanStdDev float :=
  {| cache := [1; 3]%float; cacheLen := 2%float; cacheLenU := 2%N;
     mIndex := 1%N; mPrevMean := 2%float; prevVariance := 1%float |}.

(** The detector on binary64 seeded with [1; 0], threshold 1, influence 0. *)
Definition sample_detector : peakDetector float :=
  {| index := 0%N; influence := 0%float; lag := 2%N;
     stats := {| cache := [1; 0]%float; cacheLen := 2%float;
                 cacheLenU := 2%N; mIndex := 0%N;
                 mPrevMean := 0.5%float; prevVariance := 0.25%float |};
     prevMean := 0.5%float; prevStdDev := 0.5%float;
     prevValue := 0%float; threshold := 1%float |}.

(** A detector over the reals on the one-value window [0], threshold 5,
    influence 0. *)
Definition sample_detector_exact : peakDetector R :=
  {| index := 0%N; influence := 0%R; lag := 1%N;
     stats := {| cache := [0%R]; cacheLen := 1%R; cacheLenU := 1%N;
                 mIndex := 0%N; mPrevMean := 0%R; prevVariance := 0%R |};
     prevMean := 0%R; prevStdDev := sqrt 0; prevValue := 0%R;
     threshold := 5%R |}.

(** ** The window in the order of arrival *)

(** The last [n] elements of a list. *)
Definition lastn {A : Type} (n : nat) (l : list A) : list A :=
  drop (length l - n) l.

(** The window of an estimator from its oldest value to its newest: the
    slots from the cursor on, then the slots before it. *)
Definition in_order {F : Type} (m : movingMeanStdDev F) : list F :=
  drop (N.to_nat (mIndex m)) (cache m)
  ++ take (N.to_nat (mIndex m)) (cache m).

(** The detector's own counters repeat those of its estimator. *)
Definition counters {F : Type} (p : peakDetector F) : Prop :=
  index p = mIndex (stats p) ∧ lag p = cacheLenU (stats p).

(** [n] is the estimator [m] run on the values moved by [c]. *)
Definition shift_stats (c : R) (m n : movingMeanStdDev R) : Prop :=
  cache n = Rplus c <$> cache m
  ∧ cacheLen n = cacheLen m
  ∧ cacheLenU n = cacheLenU m
  ∧ mIndex n = mIndex m
  ∧ mPrevMean n = (c + mPrevMean m)%R
  ∧ prevVariance n = prevVariance m.

(** [q] is the detector [p] run on the values moved by [c]. *)
Definition shift (c : R) (p q : peakDetector R) : Prop :=
  index q = index p
  ∧ influence q = influence p
  ∧ lag q = lag p
  ∧ shift_stats c (stats p) (stats q)
  ∧ prevMean q = (c + prevMean p)%R
  ∧ prevStdDev q = prevStdDev p
  ∧ prevValue q = (c + prevValue p)%R
  ∧ threshold q = threshold p.

(** [n] is the estimator [m] run on the values multiplied by [k]. *)
Definition scale_stats (k : R) (m n : movingMeanStdDev R) : Prop :=
  cache n = Rmult k <$> cache m
  ∧ cacheLen n = cacheLen m
  ∧ cacheLenU n = cacheLenU m
  ∧ mIndex n = mIndex m
  ∧ mPrevMean n = (k * mPrevMean m)%R
  ∧ prevVariance n = (k * k * prevVariance m)%R.

(** [q] is the detector [p] run on the values multiplied by [k]. *)
Definition scale (k : R) (p q : peakDetector R) : Prop :=
  index q = index p
  ∧ influence q = influence p
  ∧ lag q = lag p
  ∧ scale_stats k (stats p) (stats q)
  ∧ prevMean q = (k * prevMean p)%R
  ∧ prevStdDev q = (k * prevStdDev p)%R
  ∧ prevValue q = (k * prevValue p)%R
  ∧ threshold q = threshold p.

(** Two detectors over the reals that agree on everything but the
    threshold. *)
Definition same_but_threshold (p q : peakDetector R) : Prop :=
  index q = index p
  ∧ influence q = influence p
  ∧ lag q = lag p
  ∧ stats q = stats p
  ∧ prevMean q = prevMean p
  ∧ prevStdDev q = prevStdDev p
  ∧ prevValue q = prevValue p.

(** ** The two-pass statistics *)

Section TwoPass.
Context {F : Type} `{Arith F}.
Local Open Scope arith_scope.

(** [math.Pow], of Go's library. *)
Variable Pow : F → F → F.

(** [meanStdDev]: the two results start at 0 and accumulate from the
    left; [float64(len(sample))] is the length converted, and the exponent
    is the constant 2. *)
Definition meanStdDev (sample : list F) : F * F :=
  let mean := foldl fadd fzero sample in
  let mean := mean / of_uint (uint_of_len sample) in
  let stdDev :=
    foldl (λ stdDev num, stdDev + Pow (num - mean) (of_uint 2)) fzero sample in
  let stdDev := stdDev / of_uint (uint_of_len sample) in
  let stdDev := fsqrt stdDev in
  (mean, stdDev).

End TwoPass.

(** ** The detector that recomputes its statistics *)

(** The earlier [peakDetector] of the package: it keeps the window and a
    mean and a standard deviation per slot, and calls [meanStdDev] on the
    whole window at every value. *)
Module Legacy.

Section Detector.
Context {F : Type} `{Arith F}.
Local Open Scope arith_scope.

Variable Pow : F → F → F.

Record peakDetector : Type := PeakDetector {
  index : N;
  influence : F;
  lag : N;
  cache : list F;
  meanCache : list F;
  stdDevCache : list F;
  threshold : F
}.

(** The zero value [&peakDetector{}]: the three slices are nil. *)
Definition NewPeakDetector : peakDetector :=
  {| index := 0%N; influence := fzero; lag := 0%N; cache := [];
     meanCache := []; stdDevCache := []; threshold := fzero |}.

(** The assignment [s[i] = x]; [None] is the panic of an index out of
    range. *)
Definition store (s : list F) (i : N) (x : F) : option (list F) :=
  if decide (N.to_nat i < length s)%nat
  then Some (<[N.to_nat i := x]> s) else None.

(** [Initialize]: the detector after the call and the returned error; the
    outer [None] is a panic.  [index] is not assigned. *)
Definition Initialize (p : peakDetector) (influence' threshold' : F)
    (initialValues : list F) : option (peakDetector * option error) :=
  let lag' := uint_of_len initialValues in
  if (lag' =? 0)%N then
    Some ({| index := index p; influence := influence p; lag := lag';
             cache := cache p; meanCache := meanCache p;
             stdDevCache := stdDevCache p; threshold := threshold p |},
          Some ErrInvalidInitialValues)
  else
    let cache' := initialValues in
    let meanCache' := replicate (N.to_nat lag') fzero in
    let stdDevCache' := replicate (N.to_nat lag') fzero in
    let '(mean, stdDev) := meanStdDev Pow initialValues in
    meanCache'' ← store meanCache' (index p) mean;
    stdDevCache'' ← store stdDevCache' (index p) stdDev;
    Some ({| index := index p; influence := influence'; lag := lag';
             cache := cache'; meanCache := meanCache'';
             stdDevCache := stdDevCache''; threshold := threshold' |},
          None).

(** [Config], the parameters of the first [Initialize]. *)
Record Config : Type := {
  Lag : N;
  Influence : F;
  Threshold : F
}.

(** The first [Initialize], which takes a [Config]: it returns no error
    (the empty seed is left to do), ignores [config.Lag], and sets the index
    on the last slot.  On an empty seed the assignment at [length-1] is at
    index -1, a panic. *)
Definition InitializeConfig (p : peakDetector) (config : Config)
    (initialValues : list F) : option (peakDetector * option error) :=
  let lag' := uint_of_len initialValues in
  let '(mean, stdDev) := meanStdDev Pow initialValues in
  let cache' := initialValues in
  let meanCache' := replicate (length initialValues) fzero in
  let stdDevCache' := replicate (length initialValues) fzero in
  if (lag' =? 0)%N then None
  else
    meanCache'' ← store meanCache' (lag' - 1) mean;
    stdDevCache'' ← store stdDevCache' (lag' - 1) stdDev;
    Some ({| index := (lag' - 1)%N; influence := Influence config;
             lag := lag'; cache := cache'; meanCache := meanCache'';
             stdDevCache := stdDevCache''; threshold := Threshold config |},
          None).

(** [Next]; every read and write of a slice out of range is a panic. *)
Definition Next (p : peakDetector) (value : F)
    : option (peakDetector * Signal) :=
  let prevIndex := index p in
  let index' := uint_incr (index p) in
  let index' := if (index' =? lag p)%N then 0%N else index' in
  prevMean ← meanCache p !! N.to_nat prevIndex;
  prevStdDev ← stdDevCache p !! N.to_nat prevIndex;
  '(signal, cache') ←
    (if fabs (value - prevMean) >? threshold p * prevStdDev then
       prevValue ← cache p !! N.to_nat prevIndex;
       cache' ← store (cache p) index'
                  (influence p * value + (fone - influence p) * prevValue);
       Some (if value >? prevMean then SignalPositive else SignalNegative,
             cache')
     else
       cache' ← store (cache p) index' value;
       Some (SignalNeutral, cache'));
  let '(mean, stdDev) := meanStdDev Pow cache' in
  meanCache' ← store (meanCache p) index' mean;
  stdDevCache' ← store (stdDevCache p) index' stdDev;
  Some ({| index := index'; influence := influence p; lag := lag p;
           cache := cache'; meanCache := meanCache';
           stdDevCache := stdDevCache'; threshold := threshold p |},
        signal).

(** The loop of [NextBatch]. *)
Fixpoint NextBatch_loop (p : peakDetector) (signals : list Signal)
    (i : nat) (values : list F) : option (peakDetector * list Signal) :=
  match values with
  | [] => Some (p, signals)
  | v :: values' =>
      '(p', s) ← Next p v;
      NextBatch_loop p' (<[i := s]> signals) (S i) values'
  end.

Definition NextBatch (p : peakDetector) (values : list F)
    : option (peakDetector * list Signal) :=
  NextBatch_loop p (replicate (length values) SignalNeutral) 0 values.

(** Successive calls of [Next], one per value. *)
Fixpoint Next_seq (p : peakDetector) (values : list F)
    : option (peakDetector * list Signal) :=
  match values with
  | [] => Some (p, [])
  | v :: values' =>
      '(p', s) ← Next p v;
      '(p'', signals) ← Next_seq p' values';
      Some (p'', s :: signals)
  end.

End Detector.

Arguments peakDetector F : clear implicits.
Arguments Config F : clear implicits.

End Legacy.

(** ** The two detectors side by side *)

(** A list with its first element moved to the end. *)
Definition rotl1 {A : Type} (l : list A) : list A := drop 1 l ++ take 1 l.

(** A detector [o] that recomputes its statistics and a current detector
    [p] over the reals in step with it: same parameters, the window of [p]
    is that of [o] with its first slot moved to the end, the cursor of [p]
    is on the slot that corresponds to the one [o] wrote last, and the mean,
    standard deviation and last value that [p] keeps are those that [o]
    holds at its index. *)
Definition legacy_matches (o : Legacy.peakDetector R) (p : peakDetector R)
    : Prop :=
  Legacy.influence o = influence p
  ∧ Legacy.threshold o = threshold p
  ∧ Legacy.lag o = uint_of_len (Legacy.cache o)
  ∧ length (Legacy.meanCache o) = length (Legacy.cache o)
  ∧ length (Legacy.stdDevCache o) = length (Legacy.cache o)
  ∧ (Legacy.index o < Legacy.lag o)%N
  ∧ mIndex (stats p) = Legacy.index o
  ∧ cache (stats p) = rotl1 (Legacy.cache o)
  ∧ Legacy.meanCache o !! N.to_nat (Legacy.index o) = Some (prevMean p)
  ∧ Legacy.stdDevCache o !! N.to_nat (Legacy.index o) = Some (prevStdDev p)
  ∧ Legacy.cache o !! N.to_nat (Legacy.index o) = Some (prevValue p)
  ∧ Ready p
  ∧ stats_exact (stats p).

(** A recomputing detector [o] and a current detector [p] over the reals
    in step on the same window: same parameters and window, the cursor of
    [p] is on the slot that [o] writes next, and the mean, standard
    deviation and last value that [p] keeps are those that [o] holds at its
    index. *)
Definition first_matches (o : Legacy.peakDetector R) (p : peakDetector R)
    : Prop :=
  Legacy.influence o = influence p
  ∧ Legacy.threshold o = threshold p
  ∧ Legacy.lag o = uint_of_len (Legacy.cache o)
  ∧ length (Legacy.meanCache o) = length (Legacy.cache o)
  ∧ length (Legacy.stdDevCache o) = length (Legacy.cache o)
  ∧ (Legacy.index o < Legacy.lag o)%N
  ∧ mIndex (stats p)
    = (if (uint_incr (Legacy.index o) =? Legacy.lag o)%N
       then 0%N else uint_incr (Legacy.index o))
  ∧ cache (stats p) = Legacy.cache o
  ∧ Legacy.meanCache o !! N.to_nat (Legacy.index o) = Some (prevMean p)
  ∧ Legacy.stdDevCache o !! N.to_nat (Legacy.index o) = Some (prevStdDev p)
  ∧ Legacy.cache o !! N.to_nat (Legacy.index o) = Some (prevValue p)
  ∧ Ready p
  ∧ stats_exact (stats p).

(** ** Lemmas on sums *)

Section Sums.
Local Open Scope R_scope.

Lemma Rsum_cons (x : R) (l : list R) : Rsum (x :: l) = x + Rsum l.
Proof. reflexivity. Qed.

Lemma Rsum_insert (l : list R) (i : nat) (old v : R) :
  l !! i = Some old → Rsum (<[i := v]> l) = Rsum l - old + v.
Proof.
  revert i. induction l as [|x l IH]; intros [|i] Hi; simplify_eq/=.
  - fold (Rsum l). lra.
  - fold (Rsum l) (Rsum (<[i:=v]> l)). rewrite (IH i Hi). lra.
Qed.

Lemma Rsumsq_insert (l : list R) (i : nat) (old v : R) :
  l !! i = Some old → Rsumsq (<[i := v]> l) = Rsumsq l - old * old + v * v.
Proof.
  intros Hi. unfold Rsumsq. rewrite list_fmap_insert.
  apply Rsum_insert. by rewrite list_lookup_fmap, Hi.
Qed.

Lemma Rsum_deviations (l : list R) (mu : R) :
  Rsum ((λ x, (x - mu) * (x - mu)) <$> l)
  = Rsumsq l - 2 * mu * Rsum l + INR (length l) * mu * mu.
Proof.
  unfold Rsumsq. induction l as [|x l IH].
  - simpl. lra.
  - rewrite !fmap_cons, !Rsum_cons, IH. cbn [length]. rewrite S_INR. lra.
Qed.

Lemma Rsum_squares_nonneg (l : list R) (mu : R) :
  0 <= Rsum ((λ x, (x - mu) * (x - mu)) <$> l).
Proof.
  induction l as [|x l IH].
  - simpl. lra.
  - rewrite fmap_cons, Rsum_cons.
    pose proof (Rle_0_sqr (x - mu)) as Hsq. unfold Rsqr in Hsq. lra.
Qed.

Lemma true_variance_nonneg (l : list R) : 0 <= true_variance l.
Proof.
  unfold true_variance. destruct l as [|x l].
  - simpl. unfold Rdiv. rewrite Rmult_0_l. lra.
  - apply Rmult_le_pos; [apply Rsum_squares_nonneg|].
    apply Rlt_le, Rinv_0_lt_compat, lt_0_INR. simpl. lia.
Qed.

(** The variance from the sum and the sum of squares. *)
Lemma true_variance_sums (l : list R) :
  l ≠ [] →
  true_variance l
  = (Rsumsq l - Rsum l * Rsum l / INR (length l)) / INR (length l).
Proof.
  intros Hl. unfold true_variance, true_mean. rewrite Rsum_deviations.
  assert (0 < INR (length l)) by (apply lt_0_INR; destruct l; simpl; [done|lia]).
  field. lra.
Qed.

End Sums.

(** ** The cursor stays inside the window *)

Section Window.
Context {F : Type} `{Arith F}.

Lemma uint_incr_le (x : N) : (uint_incr x <= x + 1)%N.
Proof. unfold uint_incr. apply N.Div0.mod_le. Qed.

Lemma in_window_lookup (m : movingMeanStdDev F) :
  in_window m → is_Some (cache m !! N.to_nat (mIndex m)).
Proof.
  intros (Hlen & _ & Hidx). apply lookup_lt_is_Some.
  unfold uint_of_len in Hlen. lia.
Qed.

(** The outcome of [next] in terms of its result: the returned pair is
    the new mean and the square root of the new variance, the window has
    [value] at the old cursor, and the cursor stays in range. *)
Lemma next_Some_inv (m m' : movingMeanStdDev F) (value mean stdDev : F) :
  next m value = Some (m', (mean, stdDev)) →
  cache m' = <[N.to_nat (mIndex m) := value]> (cache m)
  ∧ cacheLenU m' = cacheLenU m
  ∧ cacheLen m' = cacheLen m
  ∧ mean = mPrevMean m'
  ∧ stdDev = fsqrt (prevVariance m')
  ∧ (in_window m → in_window m').
Proof.
  unfold next. destruct (cache m !! N.to_nat (mIndex m)) as [old|] eqn:Hold;
    [|done].
  intros [= <- <- <-]. cbn. do 5 (split; [done|]).
  intros (Hlen & Hfl & Hidx). split; [|split]; cbn.
  - unfold uint_of_len in *. by rewrite length_insert.
  - done.
  - pose proof (uint_incr_le (mIndex m)).
    destruct (N.eqb_spec (uint_incr (mIndex m)) (cacheLenU m)); lia.
Qed.

Lemma next_is_Some (m : movingMeanStdDev F) (value : F) :
  in_window m → is_Some (next m value).
Proof.
  intros Hw. destruct (in_window_lookup m Hw) as [old Hold].
  unfold next. rewrite Hold. by eexists.
Qed.

Lemma initialize_Some_inv (m m' : movingMeanStdDev F) (values : list F)
    (mean stdDev : F) :
  initialize m values = Some (m', (mean, stdDev)) →
  cache m' = values
  ∧ cacheLenU m' = uint_of_len values
  ∧ cacheLen m' = of_uint (uint_of_len values)
  ∧ mIndex m' = mIndex m
  ∧ mean = mPrevMean m'
  ∧ stdDev = fsqrt (prevVariance m').
Proof.
  unfold initialize. destruct values as [|first rest]; [done|].
  destruct (initialize_loop 2 first fzero rest) as [mu ss].
  intros [= <- <- <-]. by cbn.
Qed.

Lemma initialize_is_Some (m : movingMeanStdDev F) (values : list F) :
  values ≠ [] → is_Some (initialize m values).
Proof.
  unfold initialize. destruct values as [|first rest]; [done|]. intros _.
  destruct (initialize_loop 2 first fzero rest) as [mu ss]. by eexists.
Qed.

End Window.

(** ** The estimator in exact arithmetic *)

Section Exact.
Local Open Scope R_scope.

Lemma INR_length_pos (l : list R) : l ≠ [] → 0 < INR (length l).
Proof. intros Hl. apply lt_0_INR. destruct l; simpl; [done|lia]. Qed.

Lemma of_uint_len (l : list R) : of_uint (uint_of_len l) = INR (length l).
Proof.
  unfold uint_of_len. cbn. by rewrite nat_N_Z, INR_IZR_INZ.
Qed.

(** Welford's loop: started after [k] values of sum [s1] and sum of
    squares [s2], it ends with the mean and the sum of squared deviations
    of all the values. *)
Lemma initialize_loop_exact (rest : list R) (k : N) (s1 s2 : R) :
  (1 <= k)%N →
  initialize_loop (N.succ k) (s1 / IZR (Z.of_N k))
    (s2 - s1 * s1 / IZR (Z.of_N k)) rest
  = ((s1 + Rsum rest) / (IZR (Z.of_N k) + INR (length rest)),
     (s2 + Rsumsq rest)
     - (s1 + Rsum rest) * (s1 + Rsum rest)
       / (IZR (Z.of_N k) + INR (length rest))).
Proof.
  revert k s1 s2. induction rest as [|x rest IH]; intros k s1 s2 Hk.
  - cbn. by rewrite !Rplus_0_r.
  - assert (1 <= IZR (Z.of_N k)) as HK by (apply IZR_le; lia).
    assert (0 <= INR (length rest)) as Hn by apply pos_INR.
    assert (IZR (Z.of_N (N.succ k)) = IZR (Z.of_N k) + 1) as Hsucc
      by (rewrite N2Z.inj_succ, succ_IZR; reflexivity).
    cbn [initialize_loop]. cbn [fadd fsub fmul fdiv of_uint exact].
    rewrite Hsucc.
    replace (s1 / IZR (Z.of_N k)
             + (x - s1 / IZR (Z.of_N k)) / (IZR (Z.of_N k) + 1))
      with ((s1 + x) / IZR (Z.of_N (N.succ k)))
      by (rewrite Hsucc; field; lra).
    replace (s2 - s1 * s1 / IZR (Z.of_N k)
             + (x - s1 / IZR (Z.of_N k))
               * (x - (s1 + x) / IZR (Z.of_N (N.succ k))))
      with ((s2 + x * x)
            - (s1 + x) * (s1 + x) / IZR (Z.of_N (N.succ k)))
      by (rewrite Hsucc; field; lra).
    rewrite IH by lia. rewrite Hsucc. unfold Rsumsq.
    rewrite fmap_cons, !Rsum_cons. cbn [length]. rewrite S_INR.
    f_equal; [f_equal; lra|]. f_equal; [lra|]. f_equal; [f_equal; lra|lra].
Qed.

(** Seeding computes the true mean and population variance. *)
Lemma initialize_exact (m : movingMeanStdDev R) (seed : list R) :
  seed ≠ [] →
  ∃ m', initialize m seed
        = Some (m', (true_mean seed, sqrt (true_variance seed)))
        ∧ cache m' = seed
        ∧ cacheLenU m' = uint_of_len seed
        ∧ mIndex m' = mIndex m
        ∧ stats_exact m'.
Proof.
  intros Hseed. pose proof (INR_length_pos seed Hseed) as Hpos.
  pose proof (true_variance_sums seed Hseed) as Hvar.
  destruct seed as [|first rest]; [done|].
  unfold initialize.
  pose proof (initialize_loop_exact rest 1 first (first * first)) as Hloop.
  change (N.succ 1) with 2%N in Hloop. change (IZR (Z.of_N 1)) with 1 in Hloop.
  replace (first / 1) with first in Hloop by field.
  replace (first * first - first * first / 1) with 0 in Hloop by field.
  change (@fzero R exact) with 0.
  rewrite Hloop by lia. clear Hloop.
  assert ((first + Rsum rest) / (1 + INR (length rest))
          = true_mean (first :: rest)) as Hmean.
  { unfold true_mean. rewrite Rsum_cons. cbn [length]. rewrite S_INR.
    f_equal. lra. }
  assert (fdiv
            (first * first + Rsumsq rest
             - (first + Rsum rest) * (first + Rsum rest)
               / (1 + INR (length rest)))
            (of_uint (uint_of_len (first :: rest)))
          = true_variance (first :: rest)) as Hv.
  { rewrite Hvar, of_uint_len. unfold Rsumsq.
    rewrite fmap_cons, !Rsum_cons. cbn [length fdiv exact].
    rewrite S_INR. f_equal. f_equal. f_equal. lra. }
  rewrite Hv, Hmean. eexists. split; [reflexivity|].
  cbn. repeat split. apply of_uint_len.
Qed.

(** One sliding update keeps the stored statistics those of the window. *)
Lemma next_exact (m m' : movingMeanStdDev R) (v mean stdDev : R) :
  cache m ≠ [] → stats_exact m →
  next m v = Some (m', (mean, stdDev)) →
  stats_exact m'.
Proof.
  intros Hne (Hlen & Hmean & Hvar). unfold next.
  destruct (cache m !! N.to_nat (mIndex m)) as [old|] eqn:Hold; [|done].
  intros [= <- <- <-]. unfold stats_exact. cbn.
  pose proof (INR_length_pos _ Hne) as Hpos.
  assert (<[N.to_nat (mIndex m) := v]> (cache m) ≠ []) as Hne'.
  { intros Heq. apply (f_equal length) in Heq.
    rewrite length_insert in Heq. destruct (cache m); done. }
  rewrite (true_variance_sums _ Hne'). unfold true_mean.
  rewrite (Rsum_insert _ _ old), (Rsumsq_insert _ _ old), length_insert
    by done.
  rewrite Hvar, Hmean, Hlen, (true_variance_sums _ Hne). unfold true_mean.
  split; [done|]. split; field; lra.
Qed.

(** The statistics stay exact over a run of updates, which never fails
    when the cursor starts in range. *)
Lemma nexts_exact (vs : list R) (m : movingMeanStdDev R) :
  cache m ≠ [] → in_window m → stats_exact m →
  ∃ m', nexts m vs = Some m'
        ∧ length (cache m') = length (cache m)
        ∧ in_window m' ∧ stats_exact m'.
Proof.
  revert m. induction vs as [|v vs IH]; intros m Hne Hw Hex.
  - exists m. by cbn.
  - destruct (next_is_Some m v Hw) as [[m1 [mean sd]] Hnext].
    pose proof (next_Some_inv _ _ _ _ _ Hnext) as (Hc & _ & _ & _ & _ & Hw1).
    assert (length (cache m1) = length (cache m)) as Hl
      by (rewrite Hc; apply length_insert).
    destruct (IH m1) as (m' & Hrun & Hlen & Hw' & Hex').
    + intros Heq. rewrite Heq in Hl. destruct (cache m); done.
    + by apply Hw1.
    + by eapply next_exact.
    + exists m'. cbn. rewrite Hnext. cbn. rewrite Hrun.
      split; [done|]. split; [congruence|done].
Qed.

End Exact.

(** ** The estimator keeps the true statistics *)

(** C1. In exact arithmetic, once the estimator is seeded with a non-empty
    sequence (the cursor being inside the new window, as it is for a new
    estimator, whose cursor is 0), every finite run of [next] succeeds, and
    afterwards the stored mean is the arithmetic mean of the window, the
    stored variance is its population variance, and that variance is not
    negative.  The window keeps the length of the seed. *)
Theorem sliding_stats_exact (m0 : movingMeanStdDev R) (seed vs : list R) :
  seed ≠ [] →
  (mIndex m0 < uint_of_len seed)%N →
  ∃ m1 m',
    initialize m0 seed = Some (m1, (true_mean seed, sqrt (true_variance seed)))
    ∧ nexts m1 vs = Some m'
    ∧ length (cache m') = length seed
    ∧ mPrevMean m' = true_mean (cache m')
    ∧ prevVariance m' = true_variance (cache m')
    ∧ (0 <= prevVariance m')%R.
Proof.
  intros Hseed Hidx.
  destruct (initialize_exact m0 seed Hseed)
    as (m1 & Hinit & Hcache & HlenU & Hcur & Hex).
  destruct (nexts_exact vs m1) as (m' & Hrun & Hlen & _ & Hex').
  - by rewrite Hcache.
  - split; [by rewrite Hcache|]. split; [|by rewrite Hcur, HlenU].
    destruct Hex as (Hfl & _). rewrite Hfl, HlenU, Hcache.
    symmetry. apply of_uint_len.
  - done.
  - exists m1, m'. destruct Hex' as (_ & Hmean & Hvar).
    split; [done|]. split; [done|]. split; [by rewrite Hlen, Hcache|].
    split; [done|]. split; [done|].
    rewrite Hvar. apply true_variance_nonneg.
Qed.

Lemma sliding_stats_exact_witness :
  [1; 2; 3]%R ≠ []
  ∧ (mIndex (zero_movingMeanStdDev (F := R)) < uint_of_len [1; 2; 3]%R)%N
  ∧ ∃ m1 m',
      initialize zero_movingMeanStdDev [1; 2; 3]%R
      = Some (m1, (true_mean [1; 2; 3]%R, sqrt (true_variance [1; 2; 3]%R)))
      ∧ nexts m1 [4; 5]%R = Some m'
      ∧ length (cache m') = length [1; 2; 3]%R
      ∧ mPrevMean m' = true_mean (cache m')
      ∧ prevVariance m' = true_variance (cache m')
      ∧ (0 <= prevVariance m')%R.
Proof.
  split; [discriminate|]. split; [reflexivity|].
  apply (sliding_stats_exact zero_movingMeanStdDev [1; 2; 3]%R [4; 5]%R).
  - discriminate.
  - reflexivity.
Defined.

(** ** The detector: what the calls return *)

Section Calls.
Context {F : Type} `{Arith F}.

Lemma Next_unfold (p : peakDetector F) (value : F) :
  Next p value
  = '(m', (mean, stdDev)) ← next (stats p) (classify p value).2;
    Some ({| index := if (uint_incr (index p) =? lag p)%N
                      then 0%N else uint_incr (index p);
             influence := influence p; lag := lag p; stats := m';
             prevMean := mean; prevStdDev := stdDev;
             prevValue := (classify p value).2;
             threshold := threshold p |},
          (classify p value).1).
Proof. unfold Next. by destruct (classify p value). Qed.

Lemma Next_Some_inv (p p' : peakDetector F) (value : F) (s : Signal) :
  Next p value = Some (p', s) →
  s = (classify p value).1
  ∧ next (stats p) (classify p value).2
    = Some (stats p', (prevMean p', prevStdDev p'))
  ∧ prevValue p' = (classify p value).2
  ∧ influence p' = influence p
  ∧ threshold p' = threshold p
  ∧ lag p' = lag p
  ∧ index p' = (if (uint_incr (index p) =? lag p)%N
                then 0%N else uint_incr (index p)).
Proof.
  rewrite Next_unfold.
  destruct (next (stats p) (classify p value).2) as [[m' [mean sd]]|];
    [|done].
  by intros [= <- <-].
Qed.

Lemma Next_is_Some (p : peakDetector F) (value : F) :
  in_window (stats p) → is_Some (Next p value).
Proof.
  intros Hw. rewrite Next_unfold.
  destruct (next_is_Some (stats p) (classify p value).2 Hw)
    as [[m' [mean sd]] ->].
  by eexists.
Qed.

Lemma Next_Ready (p p' : peakDetector F) (value : F) (s : Signal) :
  Ready p → Next p value = Some (p', s) → Ready p'.
Proof.
  intros (Hw & _ & _) Hnext.
  apply Next_Some_inv in Hnext as (_ & Hnext & _).
  apply next_Some_inv in Hnext as (_ & _ & _ & Hmean & Hsd & Hw').
  split; [by apply Hw'|done].
Qed.

(** A call of [Next] on a ready detector: the signal and the folded value
    are those of [classify]. *)
Lemma Next_folds (p : peakDetector F) (value : F) :
  Ready p →
  ∃ p', Next p value = Some (p', (classify p value).1)
        ∧ next (stats p) (classify p value).2
          = Some (stats p', (prevMean p', prevStdDev p'))
        ∧ cache (stats p')
          = <[N.to_nat (mIndex (stats p)) := (classify p value).2]>
              (cache (stats p))
        ∧ prevValue p' = (classify p value).2.
Proof.
  intros Hp. destruct (Next_is_Some p value (proj1 Hp)) as [[p' s] Hnext].
  pose proof (Next_Some_inv _ _ _ _ Hnext) as (-> & Hstats & Hval & _).
  pose proof (next_Some_inv _ _ _ _ _ Hstats) as (Hcache & _).
  by exists p'.
Qed.

Lemma Next_seq_Ready (values : list F) (p : peakDetector F) :
  Ready p →
  ∃ p' signals, Next_seq p values = Some (p', signals) ∧ Ready p'
                ∧ length signals = length values.
Proof.
  revert p. induction values as [|v values IH]; intros p Hp.
  - by exists p, [].
  - destruct (Next_is_Some p v (proj1 Hp)) as [[p1 s] Hnext].
    destruct (IH p1 (Next_Ready _ _ _ _ Hp Hnext))
      as (p' & signals & Hseq & Hp' & Hlen).
    exists p', (s :: signals). cbn. rewrite Hnext. cbn. rewrite Hseq.
    cbn. by rewrite Hlen.
Qed.

Lemma Initialize_empty (p : peakDetector F) (influence' threshold' : F) :
  Initialize p influence' threshold' []
  = Some ({| index := index p; influence := influence p; lag := 0%N;
             stats := stats p; prevMean := prevMean p;
             prevStdDev := prevStdDev p; prevValue := prevValue p;
             threshold := threshold p |},
          Some ErrInvalidInitialValues).
Proof. reflexivity. Qed.

Lemma Initialize_nonempty (p : peakDetector F) (influence' threshold' : F)
    (seed : list F) :
  seed ≠ [] →
  ∃ p', Initialize p influence' threshold' seed = Some (p', None)
        ∧ initialize (stats p) seed
          = Some (stats p', (prevMean p', prevStdDev p'))
        ∧ influence p' = influence'
        ∧ threshold p' = threshold'
        ∧ lag p' = uint_of_len seed
        ∧ index p' = index p
        ∧ Some (prevValue p') = last seed.
Proof.
  intros Hseed. unfold Initialize.
  destruct (N.eqb_spec (uint_of_len seed) 0) as [Hz|_].
  { unfold uint_of_len in Hz. destruct seed; [done|simpl in Hz; lia]. }
  destruct (initialize_is_Some (stats p) seed Hseed)
    as [[m' [mean sd]] Hinit].
  rewrite Hinit. cbn.
  replace (N.to_nat (uint_of_len seed - 1)) with (pred (length seed))
    by (unfold uint_of_len; lia).
  rewrite <- last_lookup.
  destruct (last seed) as [x|] eqn:Hlast.
  - eexists. cbn. by repeat split.
  - apply last_None in Hlast. done.
Qed.

Lemma Initialize_Ready (p p' : peakDetector F) (influence' threshold' : F)
    (seed : list F) :
  seed ≠ [] →
  (mIndex (stats p) < uint_of_len seed)%N →
  Initialize p influence' threshold' seed = Some (p', None) →
  Ready p'.
Proof.
  intros Hseed Hidx Hinit.
  destruct (Initialize_nonempty p influence' threshold' seed Hseed)
    as (p1 & Hinit1 & Hstats & _).
  rewrite Hinit in Hinit1. injection Hinit1 as <-.
  apply initialize_Some_inv in Hstats
    as (Hcache & HlenU & Hfl & Hcur & Hmean & Hsd).
  split; [|done]. split; [by rewrite HlenU, Hcache|].
  split; [by rewrite Hfl, HlenU|]. by rewrite Hcur, HlenU.
Qed.

(** [index] and [lag] have no part in the signals. *)
Lemma classify_same_window (p q : peakDetector F) (value : F) :
  same_window p q → classify p value = classify q value.
Proof.
  intros (Hinf & _ & Hmean & Hsd & Hval & Hthr). unfold classify.
  by rewrite Hinf, Hmean, Hsd, Hval, Hthr.
Qed.

Lemma Next_seq_same_window (values : list F) (p q : peakDetector F) :
  same_window p q → snd <$> Next_seq p values = snd <$> Next_seq q values.
Proof.
  revert p q. induction values as [|v values IH]; intros p q Hpq; [done|].
  cbn. rewrite !Next_unfold, (classify_same_window p q v Hpq).
  destruct Hpq as (Hinf & Hstats & _ & _ & _ & Hthr). rewrite Hstats.
  destruct (next (stats q) (classify q v).2) as [[m' [mean sd]]|]; [|done].
  cbn. rewrite Hinf, Hthr.
  match goal with
  | |- snd <$> (Next_seq ?p1 values ≫= _) = snd <$> (Next_seq ?q1 values ≫= _) =>
      pose proof (IH p1 q1) as Hrest
  end.
  cbn in Hrest. specialize (Hrest ltac:(done)).
  destruct (Next_seq _ values) as [[p2 sp]|], (Next_seq _ values) as [[q2 sq]|];
    cbn in *; simplify_eq; done.
Qed.

(** The detectors reached from a new one are ready. *)
Lemma NewPeakDetector_Initialize_Ready (p' : peakDetector F)
    (influence' threshold' : F) (seed : list F) :
  Initialize NewPeakDetector influence' threshold' seed = Some (p', None) →
  Ready p'.
Proof.
  intros Hinit. destruct seed as [|x seed]; [discriminate Hinit|].
  apply (Initialize_Ready NewPeakDetector p' influence' threshold'
           (x :: seed)); [done| |done].
  unfold uint_of_len. cbn. lia.
Qed.

End Calls.

(** ** Initialization *)

(** C3. [Initialize] returns [ErrInvalidInitialValues] exactly when the
    seed is empty.  On a non-empty seed it succeeds whatever the influence
    and the threshold are, the lag and the window have the length of the
    seed, the window holds the seed, and the last folded value is the last
    value of the seed. *)
Theorem Initialize_error_iff_empty {F : Type} {A : Arith F}
    (p : peakDetector F) (influence' threshold' : F) (seed : list F) :
  ((∃ p', Initialize p influence' threshold' seed
          = Some (p', Some ErrInvalidInitialValues)) ↔ seed = [])
  ∧ (seed ≠ [] →
     ∃ p', Initialize p influence' threshold' seed = Some (p', None)
           ∧ lag p' = uint_of_len seed
           ∧ cacheLenU (stats p') = uint_of_len seed
           ∧ length (cache (stats p')) = length seed
           ∧ cache (stats p') = seed
           ∧ Some (prevValue p') = last seed
           ∧ influence p' = influence'
           ∧ threshold p' = threshold').
Proof.
  split; [split|].
  - intros [p' Hinit]. destruct seed as [|x seed]; [done|].
    destruct (Initialize_nonempty p influence' threshold' (x :: seed))
      as (p1 & Hinit1 & _); [done|].
    rewrite Hinit in Hinit1. discriminate.
  - intros ->. rewrite Initialize_empty. by eexists.
  - intros Hseed.
    destruct (Initialize_nonempty p influence' threshold' seed Hseed)
      as (p' & Hinit & Hstats & Hinf & Hthr & Hlag & _ & Hlast).
    apply initialize_Some_inv in Hstats as (Hcache & HlenU & _).
    exists p'. rewrite Hcache. done.
Qed.

(** C5, as the code has it.  A call of [Initialize] with an empty seed
    returns [ErrInvalidInitialValues] and leaves every field of the detector
    as it was except [lag], which it sets to 0 before the test: the
    estimator, the kept mean, standard deviation and value, the influence
    and the threshold are untouched.  A detector whose lag is 0, such as a
    new one, is left exactly as it was, and the signals of later calls of
    [Next] do not depend on the change. *)
Theorem Initialize_failure_keeps_all_but_lag {F : Type} {A : Arith F}
    (p : peakDetector F) (influence' threshold' : F) :
  ∃ p', Initialize p influence' threshold' []
        = Some (p', Some ErrInvalidInitialValues)
        ∧ lag p' = 0%N
        ∧ index p' = index p
        ∧ influence p' = influence p
        ∧ threshold p' = threshold p
        ∧ stats p' = stats p
        ∧ prevMean p' = prevMean p
        ∧ prevStdDev p' = prevStdDev p
        ∧ prevValue p' = prevValue p
        ∧ (lag p = 0%N → p' = p)
        ∧ Initialize NewPeakDetector influence' threshold' []
          = Some (NewPeakDetector, Some ErrInvalidInitialValues)
        ∧ ∀ vs, snd <$> Next_seq p' vs = snd <$> Next_seq p vs.
Proof.
  eexists. split; [apply Initialize_empty|]. cbn.
  do 8 (split; [reflexivity|]). split; [|split].
  - intros Hlag. destruct p. cbn in *. by rewrite Hlag.
  - reflexivity.
  - intros vs. by apply Next_seq_same_window.
Qed.

(** C5, as stated, fails: after a successful [Initialize] with three
    values, a call with an empty seed returns the error and changes [lag]
    from 3 to 0. *)
Lemma failed_Initialize_changes_lag :
  ∃ p p',
    Initialize (NewPeakDetector (F := float)) 0%float 5%float
      [1; 2; 3]%float = Some (p, None)
    ∧ Initialize p 0%float 5%float [] = Some (p', Some ErrInvalidInitialValues)
    ∧ lag p = 3%N
    ∧ lag p' = 0%N
    ∧ p' ≠ p.
Proof.
  eexists. eexists. split; [vm_compute; reflexivity|].
  split; [vm_compute; reflexivity|].
  split; [reflexivity|]. split; [reflexivity|].
  intros Heq. discriminate Heq.
Qed.

(** ** One update of the estimator *)


Lemma sample_stats_in_window : in_window sample_stats.
Proof. split; [reflexivity|split; [vm_compute; reflexivity|reflexivity]]. Qed.



(** ** Batches *)

Section Batch.
Context {F : Type} `{Arith F}.

Lemma Next_seq_length (values : list F) (p p' : peakDetector F)
    (signals : list Signal) :
  Next_seq p values = Some (p', signals) → length signals = length values.
Proof.
  revert p signals. induction values as [|v values IH]; intros p signals.
  - by intros [= <- <-].
  - cbn. destruct (Next p v) as [[p1 s]|]; cbn; [|done].
    destruct (Next_seq p1 values) as [[p2 out]|] eqn:Hseq; cbn; [|done].
    intros [= <- <-]. cbn. f_equal. by eapply IH.
Qed.

Lemma Next_seq_app (l1 l2 : list F) (p : peakDetector F) :
  Next_seq p (l1 ++ l2)
  = '(p1, s1) ← Next_seq p l1;
    '(p2, s2) ← Next_seq p1 l2;
    Some (p2, s1 ++ s2).
Proof.
  revert p. induction l1 as [|v l1 IH]; intros p.
  - cbn. by destruct (Next_seq p l2) as [[p2 s2]|].
  - cbn. destruct (Next p v) as [[p1 s]|]; cbn; [|done].
    rewrite IH. destruct (Next_seq p1 l1) as [[p2 s1]|]; cbn; [|done].
    by destruct (Next_seq p2 l2) as [[p3 s2]|].
Qed.

(** The loop of [NextBatch] writes the signals of the sequential calls
    into the positions from [i] on. *)
Lemma NextBatch_loop_Next_seq (values : list F) (p : peakDetector F)
    (signals : list Signal) (i : nat) :
  i + length values ≤ length signals →
  NextBatch_loop p signals i values
  = '(p', out) ← Next_seq p values;
    Some (p', take i signals ++ out ++ drop (i + length values) signals).
Proof.
  revert p signals i.
  induction values as [|v values IH]; intros p signals i Hlen.
  - cbn. by rewrite Nat.add_0_r, take_drop.
  - cbn in *. destruct (Next p v) as [[p1 s]|]; cbn; [|done].
    rewrite IH by (rewrite length_insert; lia).
    destruct (Next_seq p1 values) as [[p' out]|]; cbn; [|done].
    rewrite (take_S_r _ _ s) by (apply list_lookup_insert_eq; lia).
    rewrite take_insert_ge, drop_insert_lt by lia.
    rewrite <- app_assoc, Nat.add_succ_r. done.
Qed.

Lemma NextBatch_Next_seq (p : peakDetector F) (values : list F) :
  NextBatch p values = Next_seq p values.
Proof.
  unfold NextBatch. rewrite NextBatch_loop_Next_seq
    by (rewrite length_replicate; lia).
  destruct (Next_seq p values) as [[p' out]|] eqn:Hseq; cbn; [|done].
  apply Next_seq_length in Hseq.
  rewrite drop_ge by (rewrite length_replicate; lia).
  by rewrite app_nil_r.
Qed.

End Batch.

(** C7. For a ready detector, [NextBatch] returns one signal per value,
    the signal at position [i] is the one that the [i]-th of the
    sequential calls of [Next] returns (the call made on the detector
    reached by the first [i] values), and the detector it leaves is the one
    the sequential calls leave. *)
Theorem NextBatch_sequential {F : Type} {A : Arith F}
    (p : peakDetector F) (values : list F) :
  Ready p →
  ∃ p' signals,
    NextBatch p values = Some (p', signals)
    ∧ length signals = length values
    ∧ Next_seq p values = Some (p', signals)
    ∧ ∀ i v, values !! i = Some v →
        ∃ p_i p_i' s,
          Next_seq p (take i values) = Some (p_i, take i signals)
          ∧ Next p_i v = Some (p_i', s)
          ∧ signals !! i = Some s.
Proof.
  intros Hp.
  destruct (Next_seq_Ready values p Hp) as (p' & signals & Hseq & _ & Hlen).
  exists p', signals. rewrite NextBatch_Next_seq.
  split; [done|]. split; [done|]. split; [done|].
  intros i v Hi.
  pose proof (take_drop_middle _ _ _ Hi) as Hmid.
  rewrite <- Hmid, Next_seq_app in Hseq.
  destruct (Next_seq p (take i values)) as [[p_i s1]|] eqn:Hpre; [|done].
  cbn in Hseq.
  destruct (Next p_i v) as [[p_i' s]|] eqn:Hnext; [|done]. cbn in Hseq.
  destruct (Next_seq p_i' (drop (S i) values)) as [[p2 s2]|]; [|done].
  cbn in Hseq. injection Hseq as <- <-.
  apply Next_seq_length in Hpre as Hl1.
  assert (length s1 = i) as Hi1.
  { rewrite Hl1, length_take. apply lookup_lt_Some in Hi. lia. }
  exists p_i, p_i', s. split; [|split; [done|]].
  - by rewrite take_app_length' by done.
  - rewrite <- Hi1. apply list_lookup_middle. done.
Qed.

Lemma sample_detector_Ready : Ready sample_detector.
Proof.
  split; [|split; [reflexivity|vm_compute; reflexivity]].
  split; [reflexivity|split; [vm_compute; reflexivity|reflexivity]].
Qed.

Lemma NextBatch_sequential_witness :
  Ready sample_detector
  ∧ ∃ p' signals,
      NextBatch sample_detector [100; 0; 0.5]%float = Some (p', signals)
      ∧ length signals = length [100; 0; 0.5]%float
      ∧ Next_seq sample_detector [100; 0; 0.5]%float = Some (p', signals)
      ∧ ∀ i v, [100; 0; 0.5]%float !! i = Some v →
          ∃ p_i p_i' s,
            Next_seq sample_detector (take i [100; 0; 0.5]%float)
            = Some (p_i, take i signals)
            ∧ Next p_i v = Some (p_i', s)
            ∧ signals !! i = Some s.
Proof.
  split; [exact sample_detector_Ready|].
  apply (NextBatch_sequential sample_detector [100; 0; 0.5]%float).
  exact sample_detector_Ready.
Defined.

(** ** Classification in exact arithmetic *)

Section Classification.
Local Open Scope R_scope.

Lemma Rgtb_true (a b : R) : a > b → Rgtb a b = true.
Proof. intros Hgt. unfold Rgtb. by destruct (Rgt_dec a b). Qed.

Lemma Rgtb_false (a b : R) : ¬ a > b → Rgtb a b = false.
Proof. intros Hgt. unfold Rgtb. by destruct (Rgt_dec a b). Qed.

Lemma classify_exact (p : peakDetector R) (v : R) :
  classify p v
  = if Rgt_dec (Rabs (v - prevMean p)) (threshold p * prevStdDev p)
    then (if Rgt_dec v (prevMean p) then SignalPositive else SignalNegative,
          influence p * v + (1 - influence p) * prevValue p)
    else (SignalNeutral, v).
Proof.
  unfold classify. cbn. unfold Rgtb.
  destruct (Rgt_dec (Rabs (v - prevMean p)) (threshold p * prevStdDev p));
    [|done].
  by destruct (Rgt_dec v (prevMean p)).
Qed.

Lemma classify_positive (p : peakDetector R) (v : R) :
  Rabs (v - prevMean p) > threshold p * prevStdDev p →
  v > prevMean p →
  classify p v
  = (SignalPositive, influence p * v + (1 - influence p) * prevValue p).
Proof.
  intros Hsig Hgt. rewrite classify_exact.
  destruct (Rgt_dec (Rabs (v - prevMean p)) (threshold p * prevStdDev p));
    [|done].
  by destruct (Rgt_dec v (prevMean p)).
Qed.

Lemma classify_negative (p : peakDetector R) (v : R) :
  Rabs (v - prevMean p) > threshold p * prevStdDev p →
  v <= prevMean p →
  classify p v
  = (SignalNegative, influence p * v + (1 - influence p) * prevValue p).
Proof.
  intros Hsig Hle. rewrite classify_exact.
  destruct (Rgt_dec (Rabs (v - prevMean p)) (threshold p * prevStdDev p));
    [|done].
  destruct (Rgt_dec v (prevMean p)); [lra|done].
Qed.

End Classification.

(** The reading of the classification in exact arithmetic, with the order
    of the reals: for a ready detector [Next] classifies the value
    against the mean and standard deviation kept from before the
    update, which are those of the estimator: Positive when the deviation
    exceeds [threshold * stdDev] and the value is above the mean, Negative
    when it exceeds it and the value is not above the mean, Neutral
    otherwise, in particular when the deviation equals
    [threshold * stdDev].  The value folded into the window (written at the
    cursor, given to [next] and kept as the last folded value) is
    [influence * v + (1 - influence) * prevValue] for a signal and [v] for
    Neutral. *)
Lemma Next_exact_cases (p : peakDetector R) (v : R) :
  Ready p →
  ∃ p' s folded,
    Next p v = Some (p', s)
    ∧ prevMean p = mPrevMean (stats p)
    ∧ prevStdDev p = sqrt (prevVariance (stats p))
    ∧ (Rabs (v - prevMean p) > threshold p * prevStdDev p →
       v > prevMean p → s = SignalPositive)%R
    ∧ (Rabs (v - prevMean p) > threshold p * prevStdDev p →
       v <= prevMean p → s = SignalNegative)%R
    ∧ (¬ Rabs (v - prevMean p) > threshold p * prevStdDev p →
       s = SignalNeutral)%R
    ∧ (Rabs (v - prevMean p) = threshold p * prevStdDev p →
       s = SignalNeutral)%R
    ∧ (s ≠ SignalNeutral →
       folded = influence p * v + (1 - influence p) * prevValue p)%R
    ∧ (s = SignalNeutral → folded = v)
    ∧ next (stats p) folded = Some (stats p', (prevMean p', prevStdDev p'))
    ∧ cache (stats p')
      = <[N.to_nat (mIndex (stats p)) := folded]> (cache (stats p))
    ∧ prevValue p' = folded.
Proof.
  intros Hp. destruct (Next_is_Some p v (proj1 Hp)) as [[p' s] Hnext].
  pose proof (Next_Some_inv _ _ _ _ Hnext) as (Hs & Hstats & Hval & _).
  pose proof (next_Some_inv _ _ _ _ _ Hstats) as (Hcache & _).
  destruct Hp as (_ & Hmean & Hsd).
  exists p', s, (classify p v).2.
  split; [done|]. split; [done|]. split; [done|].
  rewrite classify_exact in Hs, Hstats, Hval, Hcache |- *.
  destruct (Rgt_dec (Rabs (v - prevMean p)) (threshold p * prevStdDev p))
    as [Hsig|Hsig]; cbn in *.
  - destruct (Rgt_dec v (prevMean p)) as [Hgt|Hgt]; cbn in *; subst s;
      repeat split; try done; intros; lra.
  - subst s. repeat split; try done; intros; lra.
Qed.

(** Comparing a value with itself: [a > a] is false on the reals and on
    binary64. *)
Lemma Rgtb_irrefl (x : R) : fgt x x = false.
Proof. apply Rgtb_false. apply Rlt_irrefl. Qed.

Lemma binary64_gt_irrefl (x : float) : fgt x x = false.
Proof.
  cbn. rewrite FloatAxioms.ltb_spec. unfold SpecFloat.SFltb.
  destruct (FloatOps.Prim2SF x) as [b|b| |b m e]; [done| |done|].
  - by destruct b.
  - cbn. by destruct b; rewrite Z.compare_refl, Pos.compare_cont_refl.
Qed.

(** C2. For a ready detector, in every arithmetic (exact or [float64]),
    [Next] classifies the value against the mean and standard deviation
    kept from before the update, which are those of the estimator, with the
    operations of the code: Positive when [|v - mean| > threshold * stdDev]
    and [v > mean], Negative when [|v - mean| > threshold * stdDev] and not
    [v > mean], Neutral otherwise; the comparison being strict ([a > a]
    false, as on the reals and on binary64), a value whose deviation equals
    [threshold * stdDev] is Neutral.  The value folded into the window
    (written at the cursor, given to [next] and kept as the last folded
    value) is [influence * v + (1 - influence) * prevValue] for a signal
    and [v] for Neutral. *)
Theorem Next_classifies {F : Type} {A : Arith F}
    (p : peakDetector F) (v : F) :
  Ready p →
  ∃ p' s folded,
    Next p v = Some (p', s)
    ∧ prevMean p = mPrevMean (stats p)
    ∧ prevStdDev p = fsqrt (prevVariance (stats p))
    ∧ ((fabs (v - prevMean p) >? threshold p * prevStdDev p)%arith = true →
       (v >? prevMean p)%arith = true → s = SignalPositive)
    ∧ ((fabs (v - prevMean p) >? threshold p * prevStdDev p)%arith = true →
       (v >? prevMean p)%arith = false → s = SignalNegative)
    ∧ ((fabs (v - prevMean p) >? threshold p * prevStdDev p)%arith = false →
       s = SignalNeutral)
    ∧ ((∀ x : F, (x >? x)%arith = false) →
       fabs (v - prevMean p)%arith = (threshold p * prevStdDev p)%arith →
       s = SignalNeutral)
    ∧ (s ≠ SignalNeutral →
       folded
       = (influence p * v + (fone - influence p) * prevValue p)%arith)
    ∧ (s = SignalNeutral → folded = v)
    ∧ next (stats p) folded = Some (stats p', (prevMean p', prevStdDev p'))
    ∧ cache (stats p')
      = <[N.to_nat (mIndex (stats p)) := folded]> (cache (stats p))
    ∧ prevValue p' = folded.
Proof.
  intros Hp.
  destruct (Next_folds p v Hp) as (p' & Hnext & Hnx & Hcache & Hval).
  destruct Hp as (_ & Hmean & Hsd).
  exists p', (classify p v).1, (classify p v).2.
  split; [done|]. split; [done|]. split; [done|].
  split; [by intros Hsig Hgt; unfold classify; rewrite Hsig, Hgt|].
  split; [by intros Hsig Hgt; unfold classify; rewrite Hsig, Hgt|].
  split; [by intros Hsig; unfold classify; rewrite Hsig|].
  split; [by intros Hirr Heq; unfold classify; rewrite Heq, Hirr|].
  split; [|split; [|done]]; unfold classify;
    destruct (fabs (v - prevMean p) >? threshold p * prevStdDev p)%arith;
    cbn; try done.
  by destruct (v >? prevMean p)%arith.
Qed.

Lemma sample_detector_exact_Ready : Ready sample_detector_exact.
Proof.
  split; [|split; reflexivity]. split; [reflexivity|split; reflexivity].
Qed.

Lemma Next_classifies_witness :
  Ready sample_detector
  ∧ ∃ p' s folded,
      Next sample_detector 100%float = Some (p', s)
      ∧ prevMean sample_detector = mPrevMean (stats sample_detector)
      ∧ prevStdDev sample_detector
        = fsqrt (prevVariance (stats sample_detector))
      ∧ ((fabs (100%float - prevMean sample_detector)
          >? threshold sample_detector * prevStdDev sample_detector)%arith
         = true →
         (100%float >? prevMean sample_detector)%arith = true →
         s = SignalPositive)
      ∧ ((fabs (100%float - prevMean sample_detector)
          >? threshold sample_detector * prevStdDev sample_detector)%arith
         = true →
         (100%float >? prevMean sample_detector)%arith = false →
         s = SignalNegative)
      ∧ ((fabs (100%float - prevMean sample_detector)
          >? threshold sample_detector * prevStdDev sample_detector)%arith
         = false →
         s = SignalNeutral)
      ∧ ((∀ x : float, (x >? x)%arith = false) →
         fabs (100%float - prevMean sample_detector)%arith
         = (threshold sample_detector * prevStdDev sample_detector)%arith →
         s = SignalNeutral)
      ∧ (s ≠ SignalNeutral →
         folded
         = (influence sample_detector * 100%float
            + (fone - influence sample_detector)
              * prevValue sample_detector)%arith)
      ∧ (s = SignalNeutral → folded = 100%float)
      ∧ next (stats sample_detector) folded
        = Some (stats p', (prevMean p', prevStdDev p'))
      ∧ cache (stats p')
        = <[N.to_nat (mIndex (stats sample_detector)) := folded]>
            (cache (stats sample_detector))
      ∧ prevValue p' = folded.
Proof.
  split; [exact sample_detector_Ready|].
  apply (Next_classifies sample_detector 100%float).
  exact sample_detector_Ready.
Defined.

(** ** Influence 0 *)

Section ZeroInfluence.
Local Open Scope R_scope.

(** [Initialize] in exact arithmetic: the kept mean and standard deviation
    are those of the seed. *)
Lemma Initialize_exact (p : peakDetector R) (influence' threshold' : R)
    (seed : list R) :
  seed ≠ [] →
  ∃ p', Initialize p influence' threshold' seed = Some (p', None)
        ∧ prevMean p' = true_mean seed
        ∧ prevStdDev p' = sqrt (true_variance seed)
        ∧ influence p' = influence'
        ∧ threshold p' = threshold'
        ∧ Some (prevValue p') = last seed
        ∧ cache (stats p') = seed
        ∧ mIndex (stats p') = mIndex (stats p)
        ∧ stats_exact (stats p').
Proof.
  intros Hseed.
  destruct (Initialize_nonempty p influence' threshold' seed Hseed)
    as (p' & Hinit & Hstats & Hinf & Hthr & _ & _ & Hlast).
  destruct (initialize_exact (stats p) seed Hseed)
    as (m' & Hm' & Hcache & _ & Hcur & Hex).
  rewrite Hstats in Hm'. injection Hm' as <- Hmean Hsd.
  by exists p'.
Qed.

Lemma true_mean_pair (a b : R) : true_mean [a; b] = (a + b) / 2.
Proof. unfold true_mean. cbn. field. Qed.

End ZeroInfluence.

(** C4, as stated, fails.  In exact arithmetic, with influence 0 and
    threshold 0 on the seed [1; 0], the value 100 is a Positive signal, and
    the call turns the window [1; 0] into [0; 0] and the mean from 1/2
    into 0. *)
Lemma zero_influence_signal_moves_window :
  ∃ p p',
    Initialize (NewPeakDetector (F := R)) 0%R 0%R [1; 0]%R = Some (p, None)
    ∧ influence p = 0%R
    ∧ Next p 100%R = Some (p', SignalPositive)
    ∧ cache (stats p) = [1; 0]%R
    ∧ cache (stats p') = [0; 0]%R
    ∧ cache (stats p') ≠ cache (stats p)
    ∧ prevMean p = (1 / 2)%R
    ∧ prevMean p' = 0%R.
Proof.
  destruct (Initialize_exact NewPeakDetector 0%R 0%R [1; 0]%R)
    as (p & Hinit & Hmean & Hsd & Hinf & Hthr & Hlast & Hcache & Hcur & Hex);
    [done|].
  assert (Ready p) as Hp by (by eapply Initialize_Ready; [| |exact Hinit]).
  cbn in Hlast, Hcur. injection Hlast as Hlast.
  rewrite true_mean_pair in Hmean.
  destruct (Next_folds p 100%R Hp) as (p' & Hnext & Hnx & Hcache' & _).
  assert (classify p 100%R = (SignalPositive, 0%R)) as Hcl.
  { rewrite classify_positive.
    - f_equal. rewrite Hinf, Hlast. lra.
    - rewrite Hthr, Hmean, Rabs_right by lra. lra.
    - rewrite Hmean. lra. }
  rewrite Hcl in Hnext, Hnx, Hcache'. cbn [fst snd] in Hnext, Hnx, Hcache'.
  rewrite Hcur, Hcache in Hcache'.
  change (<[N.to_nat 0 := 0%R]> [1%R; 0%R]) with [0%R; 0%R] in Hcache'.
  exists p, p'. split; [done|]. split; [done|]. split; [done|].
  split; [done|]. split; [done|].
  split; [rewrite Hcache, Hcache'; intros [= Heq]; lra|].
  split; [rewrite Hmean; lra|].
  pose proof (next_exact _ _ _ _ _ ltac:(by rewrite Hcache) Hex Hnx)
    as (_ & Hmean' & _).
  apply next_Some_inv in Hnx as (_ & _ & _ & -> & _).
  rewrite Hmean', Hcache', true_mean_pair. lra.
Qed.

(** The same run on binary64, with threshold 1. *)
Lemma binary64_zero_influence_run :
  ∃ p p',
    Initialize (NewPeakDetector (F := float)) 0%float 1%float [1; 0]%float
    = Some (p, None)
    ∧ Next p 100%float = Some (p', SignalPositive)
    ∧ cache (stats p) = [1; 0]%float
    ∧ cache (stats p') = [0; 0]%float
    ∧ prevMean p = 0.5%float
    ∧ prevMean p' = 0%float.
Proof.
  do 2 eexists. split; [vm_compute; reflexivity|].
  split; [vm_compute; reflexivity|]. repeat split.
Qed.

(** C4, as the code has it.  For a ready detector with influence 0, in
    exact arithmetic, a call of [Next] that emits a signal folds the last
    folded value, not the signal's value, into the window: it overwrites
    the slot at the cursor with it and leaves the other slots and the last
    folded value as they were.  When the slot at the cursor already held
    the last folded value, the window, the mean and the variance are
    unchanged. *)
Theorem zero_influence_signal_folds_last_value (p : peakDetector R) (v : R) :
  Ready p →
  influence p = 0%R →
  ∃ p' s,
    Next p v = Some (p', s)
    ∧ (s ≠ SignalNeutral →
       prevValue p' = prevValue p
       ∧ next (stats p) (prevValue p)
         = Some (stats p', (prevMean p', prevStdDev p'))
       ∧ cache (stats p')
         = <[N.to_nat (mIndex (stats p)) := prevValue p]> (cache (stats p))
       ∧ (∀ j, j ≠ N.to_nat (mIndex (stats p)) →
               cache (stats p') !! j = cache (stats p) !! j)
       ∧ (cache (stats p) !! N.to_nat (mIndex (stats p))
          = Some (prevValue p) →
          cache (stats p') = cache (stats p)
          ∧ prevMean p' = prevMean p
          ∧ prevVariance (stats p') = prevVariance (stats p)
          ∧ prevStdDev p' = prevStdDev p)).
Proof.
  intros Hp Hinf.
  destruct (Next_folds p v Hp) as (p' & Hnext & Hnx & Hcache' & Hval).
  destruct Hp as (_ & Hmean & Hsd).
  exists p', (classify p v).1. split; [done|]. intros Hs.
  assert ((classify p v).2 = prevValue p) as Hfold.
  { rewrite classify_exact in Hs |- *.
    destruct (Rgt_dec (Rabs (v - prevMean p)) (threshold p * prevStdDev p));
      cbn in *; [rewrite Hinf; lra|done]. }
  rewrite Hfold in Hnx, Hcache', Hval.
  split; [done|]. split; [done|]. split; [done|].
  split; [by intros j Hj; rewrite Hcache'; apply list_lookup_insert_ne|].
  intros Hold. unfold next in Hnx. rewrite Hold in Hnx.
  injection Hnx as Hm' Hmean' Hsd'.
  assert (prevVariance (stats p') = prevVariance (stats p)) as Hvar.
  { rewrite <- Hm'. cbn. unfold Rdiv. ring. }
  split; [by rewrite Hcache'; apply list_insert_id|].
  split; [rewrite <- Hmean', Hmean; cbn; unfold Rdiv; ring|].
  split; [done|].
  rewrite Hsd. rewrite <- Hvar, <- Hm'. by rewrite <- Hsd'.
Qed.

Lemma zero_influence_signal_folds_last_value_witness :
  Ready sample_detector_exact
  ∧ influence sample_detector_exact = 0%R
  ∧ ∃ p' s,
      Next sample_detector_exact 7%R = Some (p', s)
      ∧ (s ≠ SignalNeutral →
         prevValue p' = prevValue sample_detector_exact
         ∧ next (stats sample_detector_exact)
             (prevValue sample_detector_exact)
           = Some (stats p', (prevMean p', prevStdDev p'))
         ∧ cache (stats p')
           = <[N.to_nat (mIndex (stats sample_detector_exact))
               := prevValue sample_detector_exact]>
               (cache (stats sample_detector_exact))
         ∧ (∀ j, j ≠ N.to_nat (mIndex (stats sample_detector_exact)) →
                 cache (stats p') !! j
                 = cache (stats sample_detector_exact) !! j)
         ∧ (cache (stats sample_detector_exact)
              !! N.to_nat (mIndex (stats sample_detector_exact))
            = Some (prevValue sample_detector_exact) →
            cache (stats p') = cache (stats sample_detector_exact)
            ∧ prevMean p' = prevMean sample_detector_exact
            ∧ prevVariance (stats p')
              = prevVariance (stats sample_detector_exact)
            ∧ prevStdDev p' = prevStdDev sample_detector_exact)).
Proof.
  split; [exact sample_detector_exact_Ready|]. split; [reflexivity|].
  apply (zero_influence_signal_folds_last_value sample_detector_exact 7%R).
  - exact sample_detector_exact_Ready.
  - reflexivity.
Defined.

(** ** The negative-signal scenario *)

(** C9. Seeded with [0; 1; 0; -1; 0], threshold 5 and influence 0, a new
    detector answers Negative to -500, in exact arithmetic and on
    binary64. *)
Theorem negative_signal_scenario :
  (∃ p p',
     Initialize (NewPeakDetector (F := R)) 0%R 5%R [0; 1; 0; -1; 0]%R
     = Some (p, None)
     ∧ lag p = 5%N
     ∧ Next p (-500)%R = Some (p', SignalNegative))
  ∧ (∃ p p',
       Initialize (NewPeakDetector (F := float)) 0%float 5%float
         [0; 1; 0; -1; 0]%float
       = Some (p, None)
       ∧ lag p = 5%N
       ∧ Next p (-500)%float = Some (p', SignalNegative)).
Proof.
  split.
  - destruct (Initialize_nonempty NewPeakDetector 0%R 5%R [0; 1; 0; -1; 0]%R)
      as (p & Hinit & _ & _ & _ & Hlag & _); [done|].
    destruct (Initialize_exact NewPeakDetector 0%R 5%R [0; 1; 0; -1; 0]%R)
      as (p0 & Hinit0 & Hmean & Hsd & _ & Hthr & _); [done|].
    rewrite Hinit in Hinit0. injection Hinit0 as <-.
    assert (Ready p) as Hp by (by eapply Initialize_Ready; [| |exact Hinit]).
    assert (true_mean [0; 1; 0; -1; 0]%R = 0%R) as Hm
      by (unfold true_mean; cbn; field).
    assert (true_variance [0; 1; 0; -1; 0]%R = (2 / 5)%R) as Hv
      by (unfold true_variance; rewrite Hm; cbn; field).
    rewrite Hm in Hmean. rewrite Hv in Hsd.
    destruct (Next_folds p (-500)%R Hp) as (p' & Hnext & _).
    exists p, p'. split; [done|]. split; [done|].
    rewrite classify_negative in Hnext; [done| |rewrite Hmean; lra].
    rewrite Hthr, Hmean, Hsd, Rabs_left by lra.
    assert (sqrt (2 / 5) < sqrt 1)%R as Hlt
      by (apply sqrt_lt_1_alt; lra).
    rewrite sqrt_1 in Hlt. lra.
  - do 2 eexists. split; [vm_compute; reflexivity|].
    split; [reflexivity|]. vm_compute. reflexivity.
Qed.

(** ** Re-initialization *)

Section Reinitialize.
Context {F : Type} `{Arith F}.

Lemma next_cursor (m m' : movingMeanStdDev F) (value : F) (r : F * F) :
  next m value = Some (m', r) →
  mIndex m' = (if (uint_incr (mIndex m) =? cacheLenU m)%N
               then 0%N else uint_incr (mIndex m))
  ∧ cacheLenU m' = cacheLenU m.
Proof.
  unfold next. destruct (cache m !! N.to_nat (mIndex m)); [|done].
  by intros [= <- <-].
Qed.

(** [next] panics when the cursor is outside the window. *)
Lemma next_out_of_range (m : movingMeanStdDev F) (value : F) :
  (uint_of_len (cache m) <= mIndex m)%N → next m value = None.
Proof.
  intros Hge. unfold next.
  rewrite (lookup_ge_None_2 (cache m) (N.to_nat (mIndex m))); [done|].
  unfold uint_of_len in Hge. lia.
Qed.

End Reinitialize.

(** C10. [Initialize] keeps the cursor of the estimator.  A new detector
    seeded with three values has its cursor at 2 after two calls of [Next];
    a detector whose cursor is at or beyond the length of a new non-empty
    seed is initialized again without error, with that cursor and a window
    of the new length, and its next call of [Next] panics on the index out
    of range; a new detector initialized with the same seed answers. *)
Theorem reinitialize_keeps_cursor {F : Type} {A : Arith F} :
  (∀ (influence' threshold' a b c v1 v2 : F),
     ∃ p1 p2 p3 s1 s2,
       Initialize NewPeakDetector influence' threshold' [a; b; c]
       = Some (p1, None)
       ∧ Next p1 v1 = Some (p2, s1)
       ∧ Next p2 v2 = Some (p3, s2)
       ∧ mIndex (stats p3) = 2%N)
  ∧ (∀ (p : peakDetector F) (influence' threshold' : F) (seed : list F)
       (v : F),
       seed ≠ [] →
       (uint_of_len seed <= mIndex (stats p))%N →
       ∃ p', Initialize p influence' threshold' seed = Some (p', None)
             ∧ mIndex (stats p') = mIndex (stats p)
             ∧ cache (stats p') = seed
             ∧ Next p' v = None)
  ∧ (∀ (influence' threshold' : F) (seed : list F) (v : F),
       seed ≠ [] →
       ∃ q, Initialize NewPeakDetector influence' threshold' seed
            = Some (q, None)
            ∧ is_Some (Next q v)).
Proof.
  split; [|split].
  - intros influence' threshold' a b c v1 v2.
    destruct (Initialize_nonempty NewPeakDetector influence' threshold'
                [a; b; c]) as (p1 & Hinit & Hstats & _); [done|].
    assert (Ready p1) as Hp1 by (by eapply Initialize_Ready; [| |exact Hinit]).
    apply initialize_Some_inv in Hstats as (_ & HlenU & _ & Hcur & _).
    destruct (Next_is_Some p1 v1 (proj1 Hp1)) as [[p2 s1] Hn1].
    pose proof (Next_Ready _ _ _ _ Hp1 Hn1) as Hp2.
    destruct (Next_is_Some p2 v2 (proj1 Hp2)) as [[p3 s2] Hn2].
    exists p1, p2, p3, s1, s2. split; [done|]. split; [done|].
    split; [done|].
    apply Next_Some_inv in Hn1 as (_ & Hn1 & _).
    apply Next_Some_inv in Hn2 as (_ & Hn2 & _).
    apply next_cursor in Hn1 as (Hc1 & Hl1).
    apply next_cursor in Hn2 as (Hc2 & Hl2).
    rewrite Hc2, Hl1, Hc1, HlenU, Hcur. reflexivity.
  - intros p influence' threshold' seed v Hseed Hge.
    destruct (Initialize_nonempty p influence' threshold' seed Hseed)
      as (p' & Hinit & Hstats & _).
    apply initialize_Some_inv in Hstats as (Hcache & _ & _ & Hcur & _).
    exists p'. split; [done|]. split; [done|]. split; [done|].
    rewrite Next_unfold, next_out_of_range; [done|].
    by rewrite Hcache, Hcur.
  - intros influence' threshold' seed v Hseed.
    destruct (Initialize_nonempty NewPeakDetector influence' threshold' seed
                Hseed) as (q & Hinit & _).
    exists q. split; [done|]. apply Next_is_Some.
    eapply Initialize_Ready; [done| |exact Hinit].
    unfold uint_of_len. destruct seed; [done|]. cbn. lia.
Qed.

(** The run of C10 on binary64: seed [1; 2; 3], two calls of [Next], a
    second [Initialize] with the seed [1], and a panic. *)
Lemma binary64_reinitialize_run :
  ∃ p1 p2 p3 p4 s1 s2,
    Initialize (NewPeakDetector (F := float)) 0%float 5%float [1; 2; 3]%float
    = Some (p1, None)
    ∧ Next p1 2%float = Some (p2, s1)
    ∧ Next p2 2%float = Some (p3, s2)
    ∧ Initialize p3 0%float 5%float [1%float] = Some (p4, None)
    ∧ mIndex (stats p4) = 2%N
    ∧ length (cache (stats p4)) = 1%nat
    ∧ Next p4 1%float = None.
Proof.
  do 6 eexists. split; [vm_compute; reflexivity|].
  split; [vm_compute; reflexivity|]. split; [vm_compute; reflexivity|].
  split; [vm_compute; reflexivity|]. repeat split.
Qed.

(** ** Symmetry under negation *)

Section Symmetry.
Local Open Scope R_scope.

Lemma Rsum_opp (l : list R) : Rsum (Ropp <$> l) = - Rsum l.
Proof.
  induction l as [|x l IH].
  - cbn. lra.
  - rewrite fmap_cons, !Rsum_cons, IH. lra.
Qed.

Lemma Rsumsq_opp (l : list R) : Rsumsq (Ropp <$> l) = Rsumsq l.
Proof.
  unfold Rsumsq. induction l as [|x l IH].
  - done.
  - rewrite !fmap_cons, !Rsum_cons, IH. lra.
Qed.

Lemma true_mean_opp (l : list R) : true_mean (Ropp <$> l) = - true_mean l.
Proof.
  unfold true_mean. rewrite Rsum_opp, length_fmap. unfold Rdiv. ring.
Qed.

Lemma true_variance_opp (l : list R) :
  l ≠ [] → true_variance (Ropp <$> l) = true_variance l.
Proof.
  intros Hl. rewrite !true_variance_sums; [|done|by destruct l].
  rewrite Rsum_opp, Rsumsq_opp, length_fmap. unfold Rdiv. ring.
Qed.

Lemma next_mirror (m n m' : movingMeanStdDev R) (v mean sd : R) :
  mirror_stats m n →
  next m v = Some (m', (mean, sd)) →
  ∃ n', next n (- v) = Some (n', (- mean, sd)) ∧ mirror_stats m' n'.
Proof.
  intros (Hc & Hfl & HlenU & Hcur & Hmean & Hvar). unfold next.
  rewrite Hc, Hcur, list_lookup_fmap.
  destruct (cache m !! N.to_nat (mIndex m)) as [old|]; [|done].
  intros [= <- <- <-]. cbn. rewrite Hfl, HlenU, Hmean, Hvar.
  assert (prevVariance m
          + (- v - (- mPrevMean m + (- v - - old) / cacheLen m) + - old
             - - mPrevMean m) * (- v - - old) / cacheLen m
          = prevVariance m
            + (v - (mPrevMean m + (v - old) / cacheLen m) + old
               - mPrevMean m) * (v - old) / cacheLen m) as ->
    by (unfold Rdiv; ring).
  assert (- mPrevMean m + (- v - - old) / cacheLen m
          = - (mPrevMean m + (v - old) / cacheLen m)) as ->
    by (unfold Rdiv; ring).
  eexists. split; [reflexivity|].
  unfold mirror_stats. cbn. by rewrite list_fmap_insert.
Qed.

Lemma classify_mirror (p q : peakDetector R) (v : R) :
  mirror p q → 0 <= threshold p → 0 <= prevStdDev p →
  classify q (- v) = (flip (classify p v).1, - (classify p v).2).
Proof.
  intros (_ & Hinf & _ & _ & Hmean & Hsd & Hval & Hthr) Ht Hs.
  rewrite !classify_exact, Hinf, Hmean, Hsd, Hval, Hthr.
  replace (- v - - prevMean p) with (- (v - prevMean p)) by lra.
  rewrite Rabs_Ropp.
  assert (0 <= threshold p * prevStdDev p) by by apply Rmult_le_pos.
  destruct (Rgt_dec (Rabs (v - prevMean p)) (threshold p * prevStdDev p))
    as [Hsig|Hsig]; cbn; [|done].
  assert (v ≠ prevMean p) as Hne.
  { intros ->. rewrite Rminus_diag, Rabs_R0 in Hsig. lra. }
  destruct (Rgt_dec v (prevMean p)), (Rgt_dec (- v) (- prevMean p));
    cbn; try lra; f_equal; ring.
Qed.

Lemma Next_mirror (p q p' : peakDetector R) (v : R) (s : Signal) :
  mirror p q → 0 <= threshold p → 0 <= prevStdDev p →
  Next p v = Some (p', s) →
  ∃ q', Next q (- v) = Some (q', flip s)
        ∧ mirror p' q' ∧ 0 <= threshold p' ∧ 0 <= prevStdDev p'.
Proof.
  intros Hpq Ht Hs. pose proof (classify_mirror p q v Hpq Ht Hs) as Hcl.
  destruct Hpq as (Hidx & Hinf & Hlag & Hst & Hmean & Hsd & Hval & Hthr).
  rewrite !Next_unfold, Hcl. cbn.
  destruct (next (stats p) (classify p v).2) as [[m' [mean sd]]|] eqn:Hnext;
    [|done].
  destruct (next_mirror _ _ _ _ _ _ Hst Hnext) as (n' & Hnext' & Hst').
  rewrite Hnext'. cbn. intros [= <- <-]. eexists. split; [reflexivity|].
  apply next_Some_inv in Hnext as (_ & _ & _ & _ & -> & _).
  split; [|split; [done|apply sqrt_pos]].
  unfold mirror. cbn. by rewrite Hidx, Hlag.
Qed.

Lemma Next_seq_mirror (vs : list R) (p q p' : peakDetector R)
    (signals : list Signal) :
  mirror p q → 0 <= threshold p → 0 <= prevStdDev p →
  Next_seq p vs = Some (p', signals) →
  ∃ q', Next_seq q (Ropp <$> vs) = Some (q', flip <$> signals).
Proof.
  revert p q signals.
  induction vs as [|v vs IH]; intros p q signals Hpq Ht Hs.
  - intros [= <- <-]. by exists q.
  - cbn. destruct (Next p v) as [[p1 s]|] eqn:Hnext; [|done]. cbn.
    destruct (Next_seq p1 vs) as [[p2 out]|] eqn:Hseq; [|done]. cbn.
    intros [= <- <-].
    destruct (Next_mirror _ _ _ _ _ Hpq Ht Hs Hnext)
      as (q1 & Hnext' & Hpq1 & Ht1 & Hs1).
    destruct (IH _ _ _ Hpq1 Ht1 Hs1 Hseq) as (q2 & Hseq').
    exists q2. rewrite Hnext'. cbn. rewrite Hseq'. done.
Qed.

Lemma Initialize_mirror (influence' threshold' : R) (seed : list R)
    (p q : peakDetector R) :
  seed ≠ [] →
  Initialize NewPeakDetector influence' threshold' seed = Some (p, None) →
  Initialize NewPeakDetector influence' threshold' (Ropp <$> seed)
  = Some (q, None) →
  mirror p q ∧ threshold p = threshold' ∧ 0 <= prevStdDev p.
Proof.
  intros Hseed Hp Hq.
  assert (Ropp <$> seed ≠ []) as Hseed' by by destruct seed.
  destruct (Initialize_nonempty NewPeakDetector influence' threshold' seed
              Hseed)
    as (p0 & Hp0 & Hsp & Hinfp & Hthrp & Hlagp & Hidxp & Hlastp).
  destruct (Initialize_nonempty NewPeakDetector influence' threshold'
              (Ropp <$> seed) Hseed')
    as (q0 & Hq0 & Hsq & Hinfq & Hthrq & Hlagq & Hidxq & Hlastq).
  rewrite Hp in Hp0. injection Hp0 as <-.
  rewrite Hq in Hq0. injection Hq0 as <-.
  destruct (initialize_exact (stats NewPeakDetector) seed Hseed)
    as (m & Hm & Hcm & Hlm & Him & (Hfm & Hmm & Hvm)).
  destruct (initialize_exact (stats NewPeakDetector) (Ropp <$> seed) Hseed')
    as (n & Hn & Hcn & Hln & Hin & (Hfn & Hmn & Hvn)).
  rewrite Hsp in Hm. injection Hm as <- Hmeanp Hsdp.
  rewrite Hsq in Hn. injection Hn as <- Hmeanq Hsdq.
  split; [|split; [done|rewrite Hsdp; apply sqrt_pos]].
  unfold mirror, mirror_stats.
  rewrite Hidxp, Hidxq, Hinfp, Hinfq, Hlagp, Hlagq, Hthrp, Hthrq.
  rewrite Hcm, Hcn, Hlm, Hln, Him, Hin, Hfm, Hfn, Hmm, Hmn, Hvm, Hvn.
  rewrite Hcm, Hcn, Hmeanp, Hmeanq, Hsdp, Hsdq.
  rewrite true_mean_opp, (true_variance_opp seed Hseed).
  unfold uint_of_len. rewrite !length_fmap.
  rewrite fmap_last, <- Hlastp in Hlastq. cbn in Hlastq.
  injection Hlastq as ->. done.
Qed.

End Symmetry.

(** C8, as stated, fails.  In exact arithmetic, with threshold -1 on the
    seed [0; 2] (mean 1, standard deviation 1), the value 1 has deviation
    0, above [-1 * 1]: it is a signal, and Negative since it is not above
    the mean.  On the negated seed the negated value -1 is Negative
    too. *)
Lemma negative_threshold_breaks_symmetry :
  ∃ p q p' q',
    Initialize (NewPeakDetector (F := R)) 0%R (-1)%R [0; 2]%R
    = Some (p, None)
    ∧ Initialize (NewPeakDetector (F := R)) 0%R (-1)%R (Ropp <$> [0; 2]%R)
      = Some (q, None)
    ∧ Next p 1%R = Some (p', SignalNegative)
    ∧ Next q (- 1)%R = Some (q', SignalNegative)
    ∧ SignalNegative ≠ flip SignalNegative.
Proof.
  destruct (Initialize_exact NewPeakDetector 0%R (-1)%R [0; 2]%R)
    as (p & Hp & Hmp & Hsp & _ & Htp & _); [done|].
  destruct (Initialize_exact NewPeakDetector 0%R (-1)%R (Ropp <$> [0; 2]%R))
    as (q & Hq & Hmq & Hsq & _ & Htq & _); [done|].
  assert (Ready p) as HRp by (by eapply Initialize_Ready; [| |exact Hp]).
  assert (Ready q) as HRq by (by eapply Initialize_Ready; [| |exact Hq]).
  rewrite true_variance_opp in Hsq by done.
  rewrite true_mean_opp in Hmq.
  assert (true_mean [0; 2]%R = 1%R) as Hm
    by (rewrite true_mean_pair; lra).
  assert (true_variance [0; 2]%R = 1%R) as Hv
    by (unfold true_variance; rewrite Hm; cbn; field).
  rewrite Hm in Hmp, Hmq. rewrite Hv, sqrt_1 in Hsp, Hsq.
  destruct (Next_folds p 1%R HRp) as (p' & Hnext & _).
  destruct (Next_folds q (- 1)%R HRq) as (q' & Hnext' & _).
  rewrite classify_negative in Hnext;
    [|rewrite Htp, Hmp, Hsp, Rminus_diag, Rabs_R0; lra|rewrite Hmp; lra].
  rewrite classify_negative in Hnext';
    [|rewrite Htq, Hmq, Hsq, Rminus_diag, Rabs_R0; lra|rewrite Hmq; lra].
  exists p, q, p', q'. by repeat split.
Qed.

(** C8, as the code has it.  In exact arithmetic, for every influence and
    every threshold that is not negative, a detector seeded with a
    non-empty seed and one seeded with the negated seed, fed a stream and
    the negated stream, answer with pointwise opposite signals: Positive
    for Negative, Negative for Positive, Neutral for Neutral. *)
Theorem negation_flips_signals (influence' threshold' : R)
    (seed vs : list R) :
  seed ≠ [] →
  (0 <= threshold')%R →
  ∃ p q p' q' signals,
    Initialize NewPeakDetector influence' threshold' seed = Some (p, None)
    ∧ Initialize NewPeakDetector influence' threshold' (Ropp <$> seed)
      = Some (q, None)
    ∧ Next_seq p vs = Some (p', signals)
    ∧ Next_seq q (Ropp <$> vs) = Some (q', flip <$> signals)
    ∧ NextBatch p vs = Some (p', signals)
    ∧ NextBatch q (Ropp <$> vs) = Some (q', flip <$> signals)
    ∧ length signals = length vs.
Proof.
  intros Hseed Ht.
  assert (Ropp <$> seed ≠ []) as Hseed' by by destruct seed.
  destruct (Initialize_nonempty NewPeakDetector influence' threshold' seed
              Hseed) as (p & Hp & _).
  destruct (Initialize_nonempty NewPeakDetector influence' threshold'
              (Ropp <$> seed) Hseed') as (q & Hq & _).
  destruct (Initialize_mirror _ _ _ _ _ Hseed Hp Hq) as (Hpq & Hthr & Hsd).
  assert (Ready p) as HRp.
  { apply (Initialize_Ready NewPeakDetector p influence' threshold' seed
             Hseed); [|exact Hp].
    unfold uint_of_len. destruct seed; [done|]. cbn. lia. }
  destruct (Next_seq_Ready vs p HRp) as (p' & signals & Hseq & _ & Hlen).
  destruct (Next_seq_mirror vs p q p' signals Hpq) as (q' & Hseq');
    [by rewrite Hthr|done|done|].
  exists p, q, p', q', signals. rewrite !NextBatch_Next_seq. done.
Qed.

Lemma negation_flips_signals_witness :
  [0; 1; 0; -1; 0]%R ≠ []
  ∧ (0 <= 5)%R
  ∧ ∃ p q p' q' signals,
      Initialize NewPeakDetector 0%R 5%R [0; 1; 0; -1; 0]%R = Some (p, None)
      ∧ Initialize NewPeakDetector 0%R 5%R (Ropp <$> [0; 1; 0; -1; 0]%R)
        = Some (q, None)
      ∧ Next_seq p [-500; 2]%R = Some (p', signals)
      ∧ Next_seq q (Ropp <$> [-500; 2]%R) = Some (q', flip <$> signals)
      ∧ NextBatch p [-500; 2]%R = Some (p', signals)
      ∧ NextBatch q (Ropp <$> [-500; 2]%R) = Some (q', flip <$> signals)
      ∧ length signals = length [-500; 2]%R.
Proof.
  split; [discriminate|]. split; [lra|].
  apply (negation_flips_signals 0%R 5%R [0; 1; 0; -1; 0]%R [-500; 2]%R).
  - discriminate.
  - lra.
Defined.

(** * Further properties of the package *)

(** ** A detector that was never initialized *)

(** X1. A new detector has an empty window: [Next] panics on it for every
    value, also after [Initialize] has failed on an empty seed; [NextBatch]
    returns no signal and leaves it as it is on an empty batch, and panics
    on any other batch. *)
Theorem uninitialized_detector_panics {F : Type} {A : Arith F}
    (influence' threshold' v : F) (vs : list F) :
  ∃ p, Initialize NewPeakDetector influence' threshold' []
       = Some (p, Some ErrInvalidInitialValues)
       ∧ Next NewPeakDetector v = None
       ∧ Next p v = None
       ∧ NextBatch NewPeakDetector [] = Some (NewPeakDetector, [])
       ∧ NextBatch NewPeakDetector (v :: vs) = None
       ∧ NextBatch p (v :: vs) = None.
Proof.
  eexists. split; [apply Initialize_empty|].
  assert (∀ q : peakDetector F, cache (stats q) = [] → Next q v = None)
    as Hpanic.
  { intros q Hq. rewrite Next_unfold, next_out_of_range; [done|].
    rewrite Hq. unfold uint_of_len. cbn. lia. }
  split; [by apply Hpanic|]. split; [by apply Hpanic|].
  split; [done|].
  rewrite !NextBatch_Next_seq. cbn [Next_seq].
  by rewrite !Hpanic.
Qed.

(** ** Batches compose *)

(** X5. A batch cut in two: [NextBatch] on [l1 ++ l2] is [NextBatch] on
    [l1] followed by [NextBatch] on [l2] from the detector the first call
    leaves, with the signals one after the other; it panics when one of the
    two does. *)
Theorem NextBatch_app {F : Type} {A : Arith F}
    (p : peakDetector F) (l1 l2 : list F) :
  NextBatch p (l1 ++ l2)
  = '(p1, s1) ← NextBatch p l1;
    '(p2, s2) ← NextBatch p1 l2;
    Some (p2, s1 ++ s2).
Proof.
  rewrite !NextBatch_Next_seq, Next_seq_app.
  destruct (Next_seq p l1) as [[p1 s1]|]; cbn; [|done].
  by rewrite NextBatch_Next_seq.
Qed.

(** ** The counters *)

Section Counters.
Context {F : Type} `{Arith F}.

(** Below [2^64], the increment followed by the reset at the length is the
    successor modulo the length. *)
Lemma uint_incr_wrap (i w : N) :
  (i < w)%N → (w < uint_modulus)%N →
  (if (uint_incr i =? w)%N then 0%N else uint_incr i) = ((i + 1) mod w)%N.
Proof.
  intros Hi Hw. unfold uint_incr, uint_modulus in *.
  rewrite (N.mod_small (i + 1)) by lia.
  destruct (N.eqb_spec (i + 1)%N w) as [->|Hne].
  - by rewrite N.Div0.mod_same.
  - rewrite N.mod_small by lia. done.
Qed.

Lemma Next_counters (p p' : peakDetector F) (v : F) (s : Signal) :
  counters p → Next p v = Some (p', s) →
  counters p'
  ∧ lag p' = lag p
  ∧ influence p' = influence p
  ∧ threshold p' = threshold p
  ∧ length (cache (stats p')) = length (cache (stats p))
  ∧ index p' = (if (uint_incr (index p) =? lag p)%N
                then 0%N else uint_incr (index p)).
Proof.
  intros [Hidx Hlag] Hnext.
  apply Next_Some_inv in Hnext
    as (_ & Hnext & _ & Hinf & Hthr & Hlag' & Hidx').
  pose proof (next_cursor _ _ _ _ Hnext) as (Hcur & HlenU).
  apply next_Some_inv in Hnext as (Hcache & _).
  split; [split|].
  - by rewrite Hidx', Hcur, Hidx, Hlag.
  - by rewrite Hlag', HlenU.
  - rewrite Hcache, length_insert. done.
Qed.

Lemma Next_seq_counters (vs : list F) (p p' : peakDetector F)
    (signals : list Signal) :
  Ready p → counters p → (lag p < uint_modulus)%N →
  Next_seq p vs = Some (p', signals) →
  counters p'
  ∧ lag p' = lag p
  ∧ influence p' = influence p
  ∧ threshold p' = threshold p
  ∧ length (cache (stats p')) = length (cache (stats p))
  ∧ index p' = ((index p + N.of_nat (length vs)) mod lag p)%N.
Proof.
  revert p signals. induction vs as [|v vs IH]; intros p signals Hp Hc Hmax.
  - intros [= <- <-]. do 5 (split; [done|]). cbn.
    destruct Hc as [Hidx Hlag]. destruct Hp as ((_ & _ & Hlt) & _).
    rewrite N.add_0_r, N.mod_small; [done|]. by rewrite Hidx, Hlag.
  - cbn [Next_seq].
    destruct (Next p v) as [[p1 s]|] eqn:Hnext; [|done]. cbn.
    destruct (Next_seq p1 vs) as [[p2 out]|] eqn:Hseq; [|done]. cbn.
    intros [= <- <-].
    pose proof (Next_counters _ _ _ _ Hc Hnext)
      as (Hc1 & Hlag1 & Hinf1 & Hthr1 & Hlen1 & Hidx1).
    destruct (IH p1 out (Next_Ready _ _ _ _ Hp Hnext) Hc1) as
      (Hc2 & Hlag2 & Hinf2 & Hthr2 & Hlen2 & Hidx2);
      [by rewrite Hlag1|done|].
    split; [done|]. split; [congruence|]. split; [congruence|].
    split; [congruence|]. split; [congruence|].
    rewrite Hidx2, Hlag1, Hidx1.
    assert (index p < lag p)%N as Hlt.
    { destruct Hc as [-> ->]. by destruct Hp as ((_ & _ & Hlt) & _). }
    rewrite uint_incr_wrap by done.
    rewrite N.Div0.add_mod_idemp_l. f_equal. cbn [length]. lia.
Qed.

End Counters.

(** X2. A new detector initialized with a seed of [W] values (a length
    below [2^64]) answers every run of values, and afterwards its index and
    the cursor of its estimator are both the number of values modulo [W],
    its lag and its window still have the length [W], and the influence and
    the threshold are the ones given to [Initialize]. *)
Theorem counters_after_run {F : Type} {A : Arith F}
    (influence' threshold' : F) (seed vs : list F) :
  seed ≠ [] →
  (uint_of_len seed < uint_modulus)%N →
  ∃ p p' signals,
    Initialize NewPeakDetector influence' threshold' seed = Some (p, None)
    ∧ Next_seq p vs = Some (p', signals)
    ∧ index p' = (N.of_nat (length vs) mod uint_of_len seed)%N
    ∧ mIndex (stats p') = index p'
    ∧ lag p' = uint_of_len seed
    ∧ cacheLenU (stats p') = uint_of_len seed
    ∧ length (cache (stats p')) = length seed
    ∧ influence p' = influence'
    ∧ threshold p' = threshold'.
Proof.
  intros Hseed Hmax.
  destruct (Initialize_nonempty NewPeakDetector influence' threshold' seed
              Hseed)
    as (p & Hinit & Hstats & Hinf & Hthr & Hlag & Hidx & _).
  pose proof (NewPeakDetector_Initialize_Ready _ _ _ _ Hinit) as Hp.
  apply initialize_Some_inv in Hstats as (Hcache & HlenU & _ & Hcur & _).
  assert (counters p) as Hc by (split; [by rewrite Hidx, Hcur|congruence]).
  destruct (Next_seq_Ready vs p Hp) as (p' & signals & Hseq & _ & _).
  destruct (Next_seq_counters vs p p' signals Hp Hc) as
    ([Hidx' Hlag'] & Hlag2 & Hinf2 & Hthr2 & Hlen2 & Hidx2);
    [by rewrite Hlag|done|].
  exists p, p', signals. split; [done|]. split; [done|].
  split; [by rewrite Hidx2, Hidx, Hlag|]. split; [done|].
  split; [congruence|]. split; [congruence|].
  split; [by rewrite Hlen2, Hcache|]. split; congruence.
Qed.

Lemma counters_after_run_witness :
  [1; 2; 3]%float ≠ []
  ∧ (uint_of_len [1; 2; 3]%float < uint_modulus)%N
  ∧ ∃ p p' signals,
      Initialize NewPeakDetector 0%float 5%float [1; 2; 3]%float
      = Some (p, None)
      ∧ Next_seq p [4; 5; 6; 7]%float = Some (p', signals)
      ∧ index p'
        = (N.of_nat (length [4; 5; 6; 7]%float)
           mod uint_of_len [1; 2; 3]%float)%N
      ∧ mIndex (stats p') = index p'
      ∧ lag p' = uint_of_len [1; 2; 3]%float
      ∧ cacheLenU (stats p') = uint_of_len [1; 2; 3]%float
      ∧ length (cache (stats p')) = length [1; 2; 3]%float
      ∧ influence p' = 0%float
      ∧ threshold p' = 5%float.
Proof.
  split; [discriminate|]. split; [reflexivity|].
  apply (counters_after_run 0%float 5%float [1; 2; 3]%float
           [4; 5; 6; 7]%float).
  - discriminate.
  - reflexivity.
Defined.

(** ** The window holds the most recent values *)

Section WindowOrder.
Context {F : Type} `{Arith F}.

(** Writing at the cursor and advancing it drops the oldest value and
    appends the new one. *)
Lemma rotate_insert (l : list F) (c : nat) (v : F) :
  (c < length l)%nat →
  drop (if decide (S c = length l) then 0 else S c) (<[c := v]> l)
  ++ take (if decide (S c = length l) then 0 else S c) (<[c := v]> l)
  = drop 1 (drop c l ++ take c l) ++ [v].
Proof.
  intros Hc. destruct (lookup_lt_is_Some_2 l c Hc) as [old Hold].
  pose proof (take_drop_middle l c old Hold) as Hmid.
  assert (length (take c l) = c) as Hpre by (rewrite length_take; lia).
  rewrite insert_take_drop by done.
  rewrite (drop_S l old c Hold). cbn [app drop]. rewrite drop_0.
  destruct (decide (S c = length l)) as [Heq|Hne].
  - rewrite (drop_ge l (S c)) by lia. cbn. by rewrite app_nil_r.
  - rewrite cons_middle, app_assoc.
    rewrite drop_app_length', take_app_length' by (rewrite length_app; cbn; lia).
    by rewrite <- app_assoc.
Qed.

Lemma length_in_order (m : movingMeanStdDev F) :
  length (in_order m) = length (cache m).
Proof.
  unfold in_order. rewrite length_app, length_drop, length_take. lia.
Qed.

Lemma in_order_next (m m' : movingMeanStdDev F) (v : F) (r : F * F) :
  in_window m → (cacheLenU m < uint_modulus)%N →
  next m v = Some (m', r) →
  in_order m' = drop 1 (in_order m) ++ [v].
Proof.
  intros (Hlen & _ & Hidx) Hmax Hnext.
  pose proof (next_cursor _ _ _ _ Hnext) as (Hcur & _).
  destruct r as [mean sd].
  apply next_Some_inv in Hnext as (Hcache & _).
  rewrite uint_incr_wrap in Hcur by done.
  unfold uint_of_len in Hlen.
  assert (N.to_nat (mIndex m) < length (cache m))%nat as Hc by lia.
  unfold in_order. rewrite Hcache, <- (rotate_insert _ _ v Hc).
  assert (N.to_nat (mIndex m')
          = if decide (S (N.to_nat (mIndex m)) = length (cache m))
            then 0%nat else S (N.to_nat (mIndex m))) as ->; [|done].
  rewrite Hcur, Hlen.
  destruct (decide (S (N.to_nat (mIndex m)) = length (cache m)))
    as [Heq|Hne].
  - replace (mIndex m + 1)%N with (N.of_nat (length (cache m))) by lia.
    by rewrite N.Div0.mod_same.
  - rewrite N.mod_small by lia. lia.
Qed.

Lemma lastn_all (l : list F) : lastn (length l) l = l.
Proof. unfold lastn. by rewrite Nat.sub_diag. Qed.

Lemma lastn_step (l : list F) (v : F) (vs : list F) :
  l ≠ [] →
  lastn (length l) (l ++ v :: vs)
  = lastn (length l) ((drop 1 l ++ [v]) ++ vs).
Proof.
  intros Hl. destruct l as [|x l]; [done|]. unfold lastn.
  cbn [drop]. rewrite drop_0, !length_app. cbn [length].
  replace (S (length l) + S (length vs) - S (length l))%nat
    with (S (length vs)) by lia.
  replace (length l + 1 + length vs - S (length l))%nat
    with (length vs) by lia.
  cbn [app drop]. by rewrite <- app_assoc.
Qed.

Lemma nexts_in_order (vs : list F) (m : movingMeanStdDev F) :
  in_window m → (cacheLenU m < uint_modulus)%N →
  ∃ m', nexts m vs = Some m'
        ∧ in_window m'
        ∧ length (cache m') = length (cache m)
        ∧ in_order m' = lastn (length (cache m)) (in_order m ++ vs).
Proof.
  revert m. induction vs as [|v vs IH]; intros m Hw Hmax.
  - exists m. split; [done|]. split; [done|]. split; [done|].
    by rewrite app_nil_r, <- length_in_order, lastn_all.
  - destruct (next_is_Some m v Hw) as [[m1 r] Hnext].
    pose proof (in_order_next _ _ _ _ Hw Hmax Hnext) as Hord.
    destruct r as [mean sd].
    pose proof (next_Some_inv _ _ _ _ _ Hnext)
      as (Hcache & HlenU & _ & _ & _ & Hw1).
    assert (length (cache m1) = length (cache m)) as Hlen
      by (rewrite Hcache; apply length_insert).
    destruct (IH m1 (Hw1 Hw)) as (m' & Hrun & Hw' & Hlen' & Hord');
      [by rewrite HlenU|].
    exists m'. cbn. rewrite Hnext. cbn. split; [done|]. split; [done|].
    split; [congruence|].
    rewrite Hord', Hord, Hlen, <- (length_in_order m).
    symmetry. apply lastn_step.
    intros Hnil. apply (f_equal length) in Hnil.
    rewrite length_in_order in Hnil. destruct Hw as (Hl & _ & Hlt).
    unfold uint_of_len in Hl. cbn in Hnil. lia.
Qed.

End WindowOrder.

(** X3. The estimator is a sliding window.  With the cursor in range (and
    a window length below [2^64]), every run of [next] succeeds, and the
    window read from the cursor on, that is from the oldest value to the
    newest, is then made of the last [W] values of the old window in that
    order followed by the values of the run. *)
Theorem window_holds_last_values {F : Type} {A : Arith F}
    (m : movingMeanStdDev F) (vs : list F) :
  in_window m →
  (cacheLenU m < uint_modulus)%N →
  ∃ m', nexts m vs = Some m'
        ∧ length (cache m') = length (cache m)
        ∧ mIndex m'
          = ((mIndex m + N.of_nat (length vs)) mod cacheLenU m)%N
        ∧ in_order m' = lastn (length (cache m)) (in_order m ++ vs).
Proof.
  intros Hw Hmax.
  destruct (nexts_in_order vs m Hw Hmax) as (m' & Hrun & _ & Hlen & Hord).
  exists m'. split; [done|]. split; [done|]. split; [|done].
  clear Hlen Hord. revert m m' Hw Hmax Hrun.
  induction vs as [|v vs IH]; intros m m' Hw Hmax Hrun.
  - injection Hrun as <-. destruct Hw as (_ & _ & Hlt).
    cbn. by rewrite N.add_0_r, N.mod_small.
  - cbn in Hrun. destruct (next m v) as [[m1 [mean sd]]|] eqn:Hnext; [|done].
    cbn in Hrun.
    pose proof (next_cursor _ _ _ _ Hnext) as (Hcur & HlenU).
    apply next_Some_inv in Hnext as (_ & _ & _ & _ & _ & Hw1).
    rewrite (IH m1 m' (Hw1 Hw)) by (by rewrite ?HlenU).
    rewrite Hcur, HlenU. destruct Hw as (_ & _ & Hlt).
    rewrite uint_incr_wrap by done.
    rewrite N.Div0.add_mod_idemp_l. f_equal. cbn [length]. lia.
Qed.

Lemma window_holds_last_values_witness :
  in_window sample_stats
  ∧ (cacheLenU sample_stats < uint_modulus)%N
  ∧ ∃ m', nexts sample_stats [5; 6; 7]%float = Some m'
          ∧ length (cache m') = length (cache sample_stats)
          ∧ mIndex m'
            = ((mIndex sample_stats + N.of_nat (length [5; 6; 7]%float))
               mod cacheLenU sample_stats)%N
          ∧ in_order m'
            = lastn (length (cache sample_stats))
                (in_order sample_stats ++ [5; 6; 7]%float).
Proof.
  split; [exact sample_stats_in_window|]. split; [reflexivity|].
  apply (window_holds_last_values sample_stats [5; 6; 7]%float).
  - exact sample_stats_in_window.
  - reflexivity.
Defined.

Section LastValues.
Local Open Scope R_scope.

Lemma Rsum_Permutation (l1 l2 : list R) : l1 ≡ₚ l2 → Rsum l1 = Rsum l2.
Proof.
  induction 1 as [|x l1 l2 _ IH|x y l|l1 l2 l3 _ IH1 _ IH2].
  - done.
  - by rewrite !Rsum_cons, IH.
  - rewrite !Rsum_cons. lra.
  - congruence.
Qed.

Lemma true_mean_Permutation (l1 l2 : list R) :
  l1 ≡ₚ l2 → true_mean l1 = true_mean l2.
Proof.
  intros Hp. unfold true_mean.
  by rewrite (Rsum_Permutation _ _ Hp), (Permutation_length Hp).
Qed.

Lemma true_variance_Permutation (l1 l2 : list R) :
  l1 ≡ₚ l2 → true_variance l1 = true_variance l2.
Proof.
  intros Hp. unfold true_variance.
  rewrite (true_mean_Permutation _ _ Hp), (Permutation_length Hp).
  f_equal. apply Rsum_Permutation. by apply fmap_Permutation.
Qed.

Lemma in_order_Permutation (m : movingMeanStdDev R) : in_order m ≡ₚ cache m.
Proof.
  unfold in_order. rewrite Permutation_app_comm. by rewrite take_drop.
Qed.

Lemma initialize_in_window (m m1 : movingMeanStdDev R) (seed : list R)
    (r : R * R) :
  initialize m seed = Some (m1, r) →
  (mIndex m < uint_of_len seed)%N →
  in_window m1.
Proof.
  destruct r as [mean sd]. intros Hinit Hidx.
  apply initialize_Some_inv in Hinit as (Hcache & HlenU & Hfl & Hcur & _).
  split; [by rewrite HlenU, Hcache|].
  split; [by rewrite Hfl, HlenU|]. by rewrite Hcur, HlenU.
Qed.

(** A seeded estimator with its cursor at 0, after a run of updates. *)
Lemma nexts_exact_last_values (m1 : movingMeanStdDev R) (vs : list R) :
  cache m1 ≠ [] → in_window m1 → stats_exact m1 →
  mIndex m1 = 0%N → (cacheLenU m1 < uint_modulus)%N →
  ∃ m', nexts m1 vs = Some m'
        ∧ in_window m'
        ∧ in_order m' = lastn (length (cache m1)) (cache m1 ++ vs)
        ∧ mPrevMean m'
          = true_mean (lastn (length (cache m1)) (cache m1 ++ vs))
        ∧ prevVariance m'
          = true_variance (lastn (length (cache m1)) (cache m1 ++ vs)).
Proof.
  intros Hne Hw Hex Hcur Hmax.
  destruct (nexts_exact vs m1 Hne Hw Hex)
    as (m' & Hrun & _ & _ & (_ & Hmean & Hvar)).
  destruct (nexts_in_order vs m1 Hw Hmax) as (m2 & Hrun2 & Hw' & _ & Hord).
  rewrite Hrun in Hrun2. injection Hrun2 as <-.
  assert (in_order m1 = cache m1) as Hord1.
  { unfold in_order. rewrite Hcur. cbn. by rewrite app_nil_r. }
  rewrite Hord1 in Hord.
  exists m'. split; [done|]. split; [done|]. split; [done|].
  rewrite <- Hord.
  rewrite (true_mean_Permutation _ _ (in_order_Permutation m')).
  by rewrite (true_variance_Permutation _ _ (in_order_Permutation m')).
Qed.

End LastValues.

(** X4. In exact arithmetic, a new estimator seeded with [W] values (a
    length below [2^64]) and then updated with any run of values stores the
    arithmetic mean and the population variance of the last [W] values of
    the seed followed by the run. *)
Theorem sliding_stats_of_last_values (seed vs : list R) :
  seed ≠ [] →
  (uint_of_len seed < uint_modulus)%N →
  ∃ m1 r m',
    initialize zero_movingMeanStdDev seed = Some (m1, r)
    ∧ nexts m1 vs = Some m'
    ∧ mPrevMean m' = true_mean (lastn (length seed) (seed ++ vs))
    ∧ prevVariance m' = true_variance (lastn (length seed) (seed ++ vs)).
Proof.
  intros Hseed Hmax.
  destruct (initialize_exact zero_movingMeanStdDev seed Hseed)
    as (m1 & Hinit & Hcache & HlenU & Hcur & Hex).
  assert (in_window m1) as Hw.
  { eapply initialize_in_window; [exact Hinit|].
    unfold uint_of_len. destruct seed; [done|]. cbn. lia. }
  destruct (nexts_exact_last_values m1 vs)
    as (m' & Hrun & _ & _ & Hmean & Hvar);
    [by rewrite Hcache|done|done|done|by rewrite HlenU|].
  rewrite Hcache in Hmean, Hvar.
  by eexists m1, _, m'.
Qed.

Lemma sliding_stats_of_last_values_witness :
  [1; 2; 3]%R ≠ []
  ∧ (uint_of_len [1; 2; 3]%R < uint_modulus)%N
  ∧ ∃ m1 r m',
      initialize zero_movingMeanStdDev [1; 2; 3]%R = Some (m1, r)
      ∧ nexts m1 [4; 5]%R = Some m'
      ∧ mPrevMean m'
        = true_mean (lastn (length [1; 2; 3]%R) ([1; 2; 3] ++ [4; 5])%R)
      ∧ prevVariance m'
        = true_variance (lastn (length [1; 2; 3]%R) ([1; 2; 3] ++ [4; 5])%R).
Proof.
  split; [discriminate|]. split; [reflexivity|].
  apply (sliding_stats_of_last_values [1; 2; 3]%R [4; 5]%R).
  - discriminate.
  - reflexivity.
Defined.

(** ** A constant seed *)

Section ConstantSeed.
Local Open Scope R_scope.

Lemma Rsum_replicate (n : nat) (c : R) : Rsum (replicate n c) = INR n * c.
Proof.
  induction n as [|n IH].
  - cbn. lra.
  - cbn [replicate]. rewrite Rsum_cons, IH, S_INR. lra.
Qed.

Lemma true_mean_replicate (n : nat) (c : R) :
  true_mean (replicate (S n) c) = c.
Proof.
  unfold true_mean. rewrite Rsum_replicate, length_replicate.
  pose proof (pos_INR n). rewrite S_INR. field. lra.
Qed.

Lemma true_variance_replicate (n : nat) (c : R) :
  true_variance (replicate (S n) c) = 0.
Proof.
  unfold true_variance.
  rewrite true_mean_replicate, fmap_replicate, Rsum_replicate.
  unfold Rdiv. ring.
Qed.

End ConstantSeed.

(** X6. In exact arithmetic, a new detector seeded with one value, or with
    several equal values, keeps the standard deviation 0, and whatever the
    influence and the threshold are it answers Positive to a value above
    the seed's value, Negative to a value below it and Neutral to that
    value itself. *)
Theorem constant_seed_flags_any_change (influence' threshold' c v : R)
    (n : nat) :
  ∃ p p' s,
    Initialize NewPeakDetector influence' threshold' (replicate (S n) c)
    = Some (p, None)
    ∧ prevMean p = c
    ∧ prevStdDev p = 0%R
    ∧ Next p v = Some (p', s)
    ∧ (v > c → s = SignalPositive)%R
    ∧ (v < c → s = SignalNegative)%R
    ∧ (v = c → s = SignalNeutral).
Proof.
  destruct (Initialize_exact NewPeakDetector influence' threshold'
              (replicate (S n) c))
    as (p & Hinit & Hmean & Hsd & _ & _); [done|].
  rewrite true_mean_replicate in Hmean.
  rewrite true_variance_replicate, sqrt_0 in Hsd.
  pose proof (NewPeakDetector_Initialize_Ready _ _ _ _ Hinit) as Hp.
  destruct (Next_folds p v Hp) as (p' & Hnext & _).
  exists p, p', (classify p v).1.
  split; [done|]. split; [done|]. split; [done|]. split; [done|].
  rewrite classify_exact, Hmean, Hsd, Rmult_0_r.
  destruct (Rgt_dec (Rabs (v - c)) 0) as [Hsig|Hsig]; cbn.
  - destruct (Rgt_dec v c) as [Hgt|Hgt]; cbn.
    + split; [done|]. split; intros; lra.
    + split; [intros; lra|]. split; [done|].
      intros ->. rewrite Rminus_diag, Rabs_R0 in Hsig. lra.
  - assert (v = c) as ->.
    { destruct (Req_dec v c) as [|Hne]; [done|].
      exfalso. apply Hsig. apply Rabs_pos_lt. lra. }
    split; [intros; lra|]. split; [intros; lra|done].
Qed.

(** ** Influence 1 *)

Section InfluenceOne.
Local Open Scope R_scope.

Lemma classify_influence_one (p : peakDetector R) (v : R) :
  influence p = 1 → (classify p v).2 = v.
Proof.
  intros Hinf. rewrite classify_exact, Hinf.
  destruct (Rgt_dec (Rabs (v - prevMean p)) (threshold p * prevStdDev p));
    cbn; [ring|done].
Qed.

(** With influence 1 the estimator sees the values as they come. *)
Lemma Next_seq_influence_one (vs : list R) (p p' : peakDetector R)
    (signals : list Signal) :
  influence p = 1 → Next_seq p vs = Some (p', signals) →
  nexts (stats p) vs = Some (stats p').
Proof.
  revert p signals. induction vs as [|v vs IH]; intros p signals Hinf.
  - by intros [= <- <-].
  - cbn. destruct (Next p v) as [[p1 s]|] eqn:Hnext; [|done]. cbn.
    destruct (Next_seq p1 vs) as [[p2 out]|] eqn:Hseq; [|done]. cbn.
    intros [= <- <-].
    apply Next_Some_inv in Hnext as (_ & Hnext & _ & Hinf1 & _).
    rewrite classify_influence_one in Hnext by done.
    rewrite Hnext. cbn. eapply IH; [|exact Hseq]. by rewrite Hinf1.
Qed.

End InfluenceOne.

(** X7. In exact arithmetic, with influence 1 the detector follows the
    values as they come, signals included: a new detector seeded with [W]
    values (a length below [2^64]) answers every run of values, and the
    mean and standard deviation it then compares with are those of the last
    [W] values of the seed followed by the run, which are its window read
    from the oldest to the newest. *)
Theorem influence_one_follows_values (threshold' : R) (seed vs : list R) :
  seed ≠ [] →
  (uint_of_len seed < uint_modulus)%N →
  ∃ p p' signals,
    Initialize NewPeakDetector 1%R threshold' seed = Some (p, None)
    ∧ Next_seq p vs = Some (p', signals)
    ∧ in_order (stats p') = lastn (length seed) (seed ++ vs)
    ∧ prevMean p' = true_mean (lastn (length seed) (seed ++ vs))
    ∧ prevStdDev p'
      = sqrt (true_variance (lastn (length seed) (seed ++ vs))).
Proof.
  intros Hseed Hmax.
  destruct (Initialize_exact NewPeakDetector 1%R threshold' seed Hseed)
    as (p & Hinit & _ & _ & Hinf & _ & _ & Hcache & Hcur & Hex).
  pose proof (NewPeakDetector_Initialize_Ready _ _ _ _ Hinit) as Hp.
  destruct (Next_seq_Ready vs p Hp)
    as (p' & signals & Hseq & (_ & Hmean' & Hsd') & _).
  pose proof (Next_seq_influence_one _ _ _ _ Hinf Hseq) as Hrun.
  destruct Hp as (Hw & _).
  destruct (nexts_exact_last_values (stats p) vs)
    as (m' & Hrun' & _ & Hord & Hmean & Hvar);
    [by rewrite Hcache|done|done|done| |].
  { destruct Hw as (-> & _). by rewrite Hcache. }
  rewrite Hrun in Hrun'. injection Hrun' as <-.
  rewrite Hcache in Hord, Hmean, Hvar.
  exists p, p', signals. split; [done|]. split; [done|]. split; [done|].
  split; [by rewrite Hmean'|]. rewrite Hsd'. cbn. by rewrite Hvar.
Qed.

Lemma influence_one_follows_values_witness :
  [1; 2; 3]%R ≠ []
  ∧ (uint_of_len [1; 2; 3]%R < uint_modulus)%N
  ∧ ∃ p p' signals,
      Initialize NewPeakDetector 1%R 5%R [1; 2; 3]%R = Some (p, None)
      ∧ Next_seq p [40; 5]%R = Some (p', signals)
      ∧ in_order (stats p')
        = lastn (length [1; 2; 3]%R) ([1; 2; 3] ++ [40; 5])%R
      ∧ prevMean p'
        = true_mean (lastn (length [1; 2; 3]%R) ([1; 2; 3] ++ [40; 5])%R)
      ∧ prevStdDev p'
        = sqrt (true_variance
                  (lastn (length [1; 2; 3]%R) ([1; 2; 3] ++ [40; 5])%R)).
Proof.
  split; [discriminate|]. split; [reflexivity|].
  apply (influence_one_follows_values 5%R [1; 2; 3]%R [40; 5]%R).
  - discriminate.
  - reflexivity.
Defined.

(** ** Moving every value by a constant *)

Section Shift.
Local Open Scope R_scope.

Lemma Rsum_shift (c : R) (l : list R) :
  Rsum (Rplus c <$> l) = INR (length l) * c + Rsum l.
Proof.
  induction l as [|x l IH].
  - cbn. lra.
  - rewrite fmap_cons, !Rsum_cons, IH. cbn [length]. rewrite S_INR. lra.
Qed.

Lemma true_mean_shift (c : R) (l : list R) :
  l ≠ [] → true_mean (Rplus c <$> l) = c + true_mean l.
Proof.
  intros Hl. pose proof (INR_length_pos l Hl).
  unfold true_mean. rewrite Rsum_shift, length_fmap. field. lra.
Qed.

Lemma true_variance_shift (c : R) (l : list R) :
  l ≠ [] → true_variance (Rplus c <$> l) = true_variance l.
Proof.
  intros Hl. unfold true_variance.
  rewrite true_mean_shift, length_fmap, <- list_fmap_compose by done.
  f_equal. f_equal. apply list_fmap_ext. intros i x _. cbn. ring.
Qed.

Lemma next_shift (c : R) (m n m' : movingMeanStdDev R) (v mean sd : R) :
  shift_stats c m n →
  next m v = Some (m', (mean, sd)) →
  ∃ n', next n (c + v) = Some (n', (c + mean, sd)) ∧ shift_stats c m' n'.
Proof.
  intros (Hc & Hfl & HlenU & Hcur & Hmean & Hvar). unfold next.
  rewrite Hc, Hcur, list_lookup_fmap.
  destruct (cache m !! N.to_nat (mIndex m)) as [old|]; [|done].
  intros [= <- <- <-]. cbn. rewrite Hfl, HlenU, Hmean, Hvar.
  assert (prevVariance m
          + (c + v - (c + mPrevMean m + (c + v - (c + old)) / cacheLen m)
             + (c + old) - (c + mPrevMean m))
            * (c + v - (c + old)) / cacheLen m
          = prevVariance m
            + (v - (mPrevMean m + (v - old) / cacheLen m) + old
               - mPrevMean m) * (v - old) / cacheLen m) as ->
    by (unfold Rdiv; ring).
  assert (c + mPrevMean m + (c + v - (c + old)) / cacheLen m
          = c + (mPrevMean m + (v - old) / cacheLen m)) as ->
    by (unfold Rdiv; ring).
  eexists. split; [reflexivity|].
  unfold shift_stats. cbn. by rewrite list_fmap_insert.
Qed.

Lemma classify_shift (c : R) (p q : peakDetector R) (v : R) :
  shift c p q →
  classify q (c + v) = ((classify p v).1, c + (classify p v).2).
Proof.
  intros (_ & Hinf & _ & _ & Hmean & Hsd & Hval & Hthr).
  rewrite !classify_exact, Hinf, Hmean, Hsd, Hval, Hthr.
  replace (c + v - (c + prevMean p)) with (v - prevMean p) by lra.
  destruct (Rgt_dec (Rabs (v - prevMean p)) (threshold p * prevStdDev p));
    cbn; [|done].
  destruct (Rgt_dec v (prevMean p)), (Rgt_dec (c + v) (c + prevMean p));
    cbn; try lra; f_equal; ring.
Qed.

Lemma Next_shift (c : R) (p q p' : peakDetector R) (v : R) (s : Signal) :
  shift c p q → Next p v = Some (p', s) →
  ∃ q', Next q (c + v) = Some (q', s) ∧ shift c p' q'.
Proof.
  intros Hpq. pose proof (classify_shift c p q v Hpq) as Hcl.
  destruct Hpq as (Hidx & Hinf & Hlag & Hst & Hmean & Hsd & Hval & Hthr).
  rewrite !Next_unfold, Hcl. cbn.
  destruct (next (stats p) (classify p v).2) as [[m' [mean sd]]|] eqn:Hnext;
    [|done].
  destruct (next_shift _ _ _ _ _ _ _ Hst Hnext) as (n' & Hnext' & Hst').
  rewrite Hnext'. cbn. intros [= <- <-]. eexists. split; [reflexivity|].
  unfold shift. cbn. by rewrite Hidx, Hlag.
Qed.

Lemma Next_seq_shift (c : R) (vs : list R) (p q p' : peakDetector R)
    (signals : list Signal) :
  shift c p q → Next_seq p vs = Some (p', signals) →
  ∃ q', Next_seq q (Rplus c <$> vs) = Some (q', signals).
Proof.
  revert p q signals. induction vs as [|v vs IH]; intros p q signals Hpq.
  - intros [= <- <-]. by exists q.
  - cbn. destruct (Next p v) as [[p1 s]|] eqn:Hnext; [|done]. cbn.
    destruct (Next_seq p1 vs) as [[p2 out]|] eqn:Hseq; [|done]. cbn.
    intros [= <- <-].
    destruct (Next_shift _ _ _ _ _ _ Hpq Hnext) as (q1 & Hnext' & Hpq1).
    destruct (IH _ _ _ Hpq1 Hseq) as (q2 & Hseq').
    exists q2. rewrite Hnext'. cbn. rewrite Hseq'. done.
Qed.

Lemma Initialize_shift (c influence' threshold' : R) (seed : list R)
    (p q : peakDetector R) :
  seed ≠ [] →
  Initialize NewPeakDetector influence' threshold' seed = Some (p, None) →
  Initialize NewPeakDetector influence' threshold' (Rplus c <$> seed)
  = Some (q, None) →
  shift c p q.
Proof.
  intros Hseed Hp Hq.
  assert (Rplus c <$> seed ≠ []) as Hseed' by by destruct seed.
  destruct (Initialize_nonempty NewPeakDetector influence' threshold' seed
              Hseed)
    as (p0 & Hp0 & Hsp & Hinfp & Hthrp & Hlagp & Hidxp & Hlastp).
  destruct (Initialize_nonempty NewPeakDetector influence' threshold'
              (Rplus c <$> seed) Hseed')
    as (q0 & Hq0 & Hsq & Hinfq & Hthrq & Hlagq & Hidxq & Hlastq).
  rewrite Hp in Hp0. injection Hp0 as <-.
  rewrite Hq in Hq0. injection Hq0 as <-.
  destruct (initialize_exact (stats NewPeakDetector) seed Hseed)
    as (m & Hm & Hcm & Hlm & Him & (Hfm & Hmm & Hvm)).
  destruct (initialize_exact (stats NewPeakDetector) (Rplus c <$> seed)
              Hseed')
    as (n & Hn & Hcn & Hln & Hin & (Hfn & Hmn & Hvn)).
  rewrite Hsp in Hm. injection Hm as <- Hmeanp Hsdp.
  rewrite Hsq in Hn. injection Hn as <- Hmeanq Hsdq.
  unfold shift, shift_stats.
  rewrite Hidxp, Hidxq, Hinfp, Hinfq, Hlagp, Hlagq, Hthrp, Hthrq.
  rewrite Hcm, Hcn, Hlm, Hln, Him, Hin, Hfm, Hfn, Hmm, Hmn, Hvm, Hvn.
  rewrite Hcm, Hcn, Hmeanp, Hmeanq, Hsdp, Hsdq.
  rewrite (true_mean_shift c seed Hseed), (true_variance_shift c seed Hseed).
  unfold uint_of_len. rewrite !length_fmap.
  rewrite fmap_last, <- Hlastp in Hlastq. cbn in Hlastq.
  injection Hlastq as ->. done.
Qed.

End Shift.

(** X8. In exact arithmetic the signals do not depend on the level of the
    data: for every influence and threshold, a new detector seeded with a
    non-empty seed and fed a run of values, and one seeded and fed the same
    values all moved by a constant [c], return the same signals. *)
Theorem signals_invariant_under_shift (c influence' threshold' : R)
    (seed vs : list R) :
  seed ≠ [] →
  ∃ p q p' q' signals,
    Initialize NewPeakDetector influence' threshold' seed = Some (p, None)
    ∧ Initialize NewPeakDetector influence' threshold' (Rplus c <$> seed)
      = Some (q, None)
    ∧ NextBatch p vs = Some (p', signals)
    ∧ NextBatch q (Rplus c <$> vs) = Some (q', signals)
    ∧ length signals = length vs.
Proof.
  intros Hseed.
  assert (Rplus c <$> seed ≠ []) as Hseed' by by destruct seed.
  destruct (Initialize_nonempty NewPeakDetector influence' threshold' seed
              Hseed) as (p & Hp & _).
  destruct (Initialize_nonempty NewPeakDetector influence' threshold'
              (Rplus c <$> seed) Hseed') as (q & Hq & _).
  pose proof (Initialize_shift _ _ _ _ _ _ Hseed Hp Hq) as Hpq.
  pose proof (NewPeakDetector_Initialize_Ready _ _ _ _ Hp) as HRp.
  destruct (Next_seq_Ready vs p HRp) as (p' & signals & Hseq & _ & Hlen).
  destruct (Next_seq_shift c vs p q p' signals Hpq Hseq) as (q' & Hseq').
  exists p, q, p', q', signals. rewrite !NextBatch_Next_seq. done.
Qed.

Lemma signals_invariant_under_shift_witness :
  [0; 1; 0; -1; 0]%R ≠ []
  ∧ ∃ p q p' q' signals,
      Initialize NewPeakDetector 0%R 5%R [0; 1; 0; -1; 0]%R = Some (p, None)
      ∧ Initialize NewPeakDetector 0%R 5%R
          (Rplus 10 <$> [0; 1; 0; -1; 0]%R)
        = Some (q, None)
      ∧ NextBatch p [-500; 2]%R = Some (p', signals)
      ∧ NextBatch q (Rplus 10 <$> [-500; 2]%R) = Some (q', signals)
      ∧ length signals = length [-500; 2]%R.
Proof.
  split; [discriminate|].
  apply (signals_invariant_under_shift 10%R 0%R 5%R [0; 1; 0; -1; 0]%R
           [-500; 2]%R).
  discriminate.
Defined.

(** ** Raising the threshold *)

Section Threshold.
Local Open Scope R_scope.

Lemma Next_raise_threshold (p q p' : peakDetector R) (v : R) (s : Signal) :
  same_but_threshold p q → influence p = 1 →
  threshold p <= threshold q → 0 <= prevStdDev p →
  Next p v = Some (p', s) →
  ∃ q' s', Next q v = Some (q', s')
           ∧ (s' ≠ SignalNeutral → s = s')
           ∧ same_but_threshold p' q'
           ∧ influence p' = 1
           ∧ threshold p' = threshold p
           ∧ threshold q' = threshold q
           ∧ 0 <= prevStdDev p'.
Proof.
  intros (Hidx & Hinf & Hlag & Hst & Hmean & Hsd & Hval) Hone Hle Hpos.
  assert (influence q = 1) as Hone' by congruence.
  rewrite !Next_unfold, Hst.
  rewrite (classify_influence_one p v Hone), (classify_influence_one q v Hone').
  destruct (next (stats p) v) as [[m' [mean sd]]|] eqn:Hnext; [|done].
  cbn. intros [= <- <-]. eexists _, _. split; [reflexivity|].
  apply next_Some_inv in Hnext as (_ & _ & _ & _ & -> & _).
  split; [|split; [|split; [done|split; [done|split; [done|apply sqrt_pos]]]]].
  - rewrite !classify_exact, Hmean, Hsd.
    assert (threshold p * prevStdDev p <= threshold q * prevStdDev p)
      by by apply Rmult_le_compat_r.
    destruct (Rgt_dec (Rabs (v - prevMean p)) (threshold q * prevStdDev p));
      cbn; [|done].
    destruct (Rgt_dec (Rabs (v - prevMean p)) (threshold p * prevStdDev p));
      cbn; [done|lra].
  - unfold same_but_threshold. cbn. by rewrite Hidx, Hlag, Hinf.
Qed.

Lemma Next_seq_raise_threshold (vs : list R) (p q p' : peakDetector R)
    (signals : list Signal) :
  same_but_threshold p q → influence p = 1 →
  threshold p <= threshold q → 0 <= prevStdDev p →
  Next_seq p vs = Some (p', signals) →
  ∃ q' signals',
    Next_seq q vs = Some (q', signals')
    ∧ Forall2 (λ s s', s' ≠ SignalNeutral → s = s') signals signals'.
Proof.
  revert p q signals.
  induction vs as [|v vs IH]; intros p q signals Hpq Hone Hle Hpos.
  - intros [= <- <-]. exists q, []. by split.
  - cbn. destruct (Next p v) as [[p1 s]|] eqn:Hnext; [|done]. cbn.
    destruct (Next_seq p1 vs) as [[p2 out]|] eqn:Hseq; [|done]. cbn.
    intros [= <- <-].
    destruct (Next_raise_threshold _ _ _ _ _ Hpq Hone Hle Hpos Hnext)
      as (q1 & s' & Hnext' & Hs & Hpq1 & Hone1 & Htp & Htq & Hpos1).
    destruct (IH p1 q1 out Hpq1 Hone1) as (q2 & out' & Hseq' & Hall);
      [by rewrite Htp, Htq|done|done|].
    exists q2, (s' :: out'). rewrite Hnext'. cbn. rewrite Hseq'. cbn.
    split; [done|]. by constructor.
Qed.

End Threshold.

(** X9. In exact arithmetic, with influence 1, raising the threshold only
    removes signals: of two new detectors seeded alike and fed the same
    run, the one with the higher threshold signals only where the other one
    does, and with the same sign. *)
Theorem higher_threshold_fewer_signals (low high : R) (seed vs : list R) :
  seed ≠ [] →
  (low <= high)%R →
  ∃ p q p' q' signals signals',
    Initialize NewPeakDetector 1%R low seed = Some (p, None)
    ∧ Initialize NewPeakDetector 1%R high seed = Some (q, None)
    ∧ Next_seq p vs = Some (p', signals)
    ∧ Next_seq q vs = Some (q', signals')
    ∧ Forall2 (λ s s', s' ≠ SignalNeutral → s = s') signals signals'.
Proof.
  intros Hseed Hle.
  destruct (Initialize_exact NewPeakDetector 1%R low seed Hseed)
    as (p & Hp & Hmp & Hsp & Hip & Htp & Hlp & _).
  destruct (Initialize_exact NewPeakDetector 1%R high seed Hseed)
    as (q & Hq & Hmq & Hsq & Hiq & Htq & Hlq & _).
  destruct (Initialize_nonempty NewPeakDetector 1%R low seed Hseed)
    as (p0 & Hp0 & Hstp & _ & _ & Hlagp & Hidxp & _).
  destruct (Initialize_nonempty NewPeakDetector 1%R high seed Hseed)
    as (q0 & Hq0 & Hstq & _ & _ & Hlagq & Hidxq & _).
  rewrite Hp in Hp0. injection Hp0 as <-.
  rewrite Hq in Hq0. injection Hq0 as <-.
  assert (stats q = stats p) as Hst by congruence.
  assert (prevValue q = prevValue p) as Hval by congruence.
  assert (same_but_threshold p q) as Hpq.
  { unfold same_but_threshold.
    rewrite Hidxp, Hidxq, Hip, Hiq, Hlagp, Hlagq, Hmp, Hmq, Hsp, Hsq. done. }
  pose proof (NewPeakDetector_Initialize_Ready _ _ _ _ Hp) as HRp.
  destruct (Next_seq_Ready vs p HRp) as (p' & signals & Hseq & _).
  destruct (Next_seq_raise_threshold vs p q p' signals Hpq Hip)
    as (q' & signals' & Hseq' & Hall);
    [by rewrite Htp, Htq|rewrite Hsp; apply sqrt_pos|done|].
  by exists p, q, p', q', signals, signals'.
Qed.

Lemma higher_threshold_fewer_signals_witness :
  [0; 1; 0; -1; 0]%R ≠ []
  ∧ (3 <= 5)%R
  ∧ ∃ p q p' q' signals signals',
      Initialize NewPeakDetector 1%R 3%R [0; 1; 0; -1; 0]%R = Some (p, None)
      ∧ Initialize NewPeakDetector 1%R 5%R [0; 1; 0; -1; 0]%R
        = Some (q, None)
      ∧ Next_seq p [-500; 2]%R = Some (p', signals)
      ∧ Next_seq q [-500; 2]%R = Some (q', signals')
      ∧ Forall2 (λ s s', s' ≠ SignalNeutral → s = s') signals signals'.
Proof.
  split; [discriminate|]. split; [lra|].
  apply (higher_threshold_fewer_signals 3%R 5%R [0; 1; 0; -1; 0]%R
           [-500; 2]%R).
  - discriminate.
  - lra.
Defined.

(** ** The two-pass statistics *)

Section TwoPassExact.
Local Open Scope R_scope.

Variable Pow : R → R → R.
Hypothesis Pow_2 : ∀ x, Pow x 2 = x * x.

Lemma foldl_Rplus (l : list R) (a : R) : foldl Rplus a l = a + Rsum l.
Proof.
  revert a. induction l as [|x l IH]; intros a.
  - cbn. lra.
  - cbn [foldl]. rewrite IH, Rsum_cons. lra.
Qed.

Lemma foldl_deviations (l : list R) (mu a : R) :
  foldl (λ acc num, acc + Pow (num - mu) 2) a l
  = a + Rsum ((λ x, (x - mu) * (x - mu)) <$> l).
Proof.
  revert a. induction l as [|x l IH]; intros a.
  - cbn. lra.
  - cbn [foldl]. rewrite IH, fmap_cons, Rsum_cons, Pow_2. lra.
Qed.

(** The two passes of [meanStdDev] as sums. *)
Lemma meanStdDev_sums (sample : list R) :
  meanStdDev Pow sample
  = (Rsum sample / INR (length sample),
     sqrt (Rsum ((λ x, (x - Rsum sample / INR (length sample))
                       * (x - Rsum sample / INR (length sample)))
                   <$> sample)
           / INR (length sample))).
Proof.
  unfold meanStdDev. rewrite of_uint_len.
  cbn [fadd fsub fmul fdiv fsqrt fzero of_uint exact].
  change (IZR (Z.of_N 2)) with 2.
  rewrite foldl_Rplus, foldl_deviations, !Rplus_0_l. done.
Qed.

End TwoPassExact.

(** X12. In exact arithmetic (where [math.Pow(x, 2)] is [x * x]),
    [meanStdDev] returns the arithmetic mean of the sample and the square
    root of its population variance. *)
Theorem meanStdDev_exact (Pow : R → R → R) (sample : list R) :
  (∀ x, Pow x 2 = x * x)%R →
  meanStdDev Pow sample = (true_mean sample, sqrt (true_variance sample)).
Proof.
  intros HPow. rewrite (meanStdDev_sums Pow HPow).
  unfold true_variance, true_mean. reflexivity.
Qed.

Lemma meanStdDev_exact_witness :
  (∀ x, (λ x _ : R, x * x) x 2 = x * x)%R
  ∧ meanStdDev (λ x _ : R, x * x)%R [1; 2; 3]%R
    = (true_mean [1; 2; 3]%R, sqrt (true_variance [1; 2; 3]%R)).
Proof.
  split; [reflexivity|].
  apply (meanStdDev_exact (λ x _ : R, x * x)%R [1; 2; 3]%R).
  reflexivity.
Defined.

(** X13. In exact arithmetic, on a non-empty seed the single pass of
    [initialize] (Welford's method) returns the mean and standard deviation
    that the two passes of [meanStdDev] return. *)
Theorem initialize_agrees_with_meanStdDev (Pow : R → R → R)
    (m : movingMeanStdDev R) (seed : list R) :
  (∀ x, Pow x 2 = x * x)%R →
  seed ≠ [] →
  ∃ m', initialize m seed = Some (m', meanStdDev Pow seed)
        ∧ cache m' = seed.
Proof.
  intros HPow Hseed.
  destruct (initialize_exact m seed Hseed) as (m' & Hinit & Hcache & _).
  exists m'. split; [|done].
  rewrite Hinit, (meanStdDev_sums Pow HPow). done.
Qed.

Lemma initialize_agrees_with_meanStdDev_witness :
  (∀ x, (λ x _ : R, x * x) x 2 = x * x)%R
  ∧ [1; 2; 3]%R ≠ []
  ∧ ∃ m', initialize zero_movingMeanStdDev [1; 2; 3]%R
          = Some (m', meanStdDev (λ x _ : R, x * x)%R [1; 2; 3]%R)
          ∧ cache m' = [1; 2; 3]%R.
Proof.
  split; [reflexivity|]. split; [discriminate|].
  apply (initialize_agrees_with_meanStdDev (λ x _ : R, x * x)%R
           zero_movingMeanStdDev [1; 2; 3]%R).
  - reflexivity.
  - discriminate.
Defined.

(** X14. On binary64, [meanStdDev] of an empty sample divides 0 by 0: both
    results are NaN, whatever [math.Pow] is. *)
Theorem meanStdDev_empty_is_NaN (Pow : float → float → float) :
  PrimFloat.is_nan (meanStdDev Pow []).1 = true
  ∧ PrimFloat.is_nan (meanStdDev Pow []).2 = true.
Proof. split; vm_compute; reflexivity. Qed.

(** ** The detector that recomputes its statistics *)

Section LegacyCalls.
Context {F : Type} `{Arith F}.
Variable Pow : F → F → F.

Lemma Legacy_store_Some (s : list F) (i : N) (x : F) :
  (N.to_nat i < length s)%nat →
  Legacy.store s i x = Some (<[N.to_nat i := x]> s).
Proof. intros Hi. unfold Legacy.store. by rewrite decide_True. Qed.

Lemma Legacy_store_None (s : list F) (i : N) (x : F) :
  (length s <= N.to_nat i)%nat → Legacy.store s i x = None.
Proof. intros Hi. unfold Legacy.store. rewrite decide_False; [done|lia]. Qed.

Lemma Legacy_Next_seq_length (values : list F)
    (p p' : Legacy.peakDetector F) (signals : list Signal) :
  Legacy.Next_seq Pow p values = Some (p', signals) →
  length signals = length values.
Proof.
  revert p signals. induction values as [|v values IH]; intros p signals.
  - by intros [= <- <-].
  - cbn. destruct (Legacy.Next Pow p v) as [[p1 s]|]; cbn; [|done].
    destruct (Legacy.Next_seq Pow p1 values) as [[p2 out]|] eqn:Hseq; cbn;
      [|done].
    intros [= <- <-]. cbn. f_equal. by eapply IH.
Qed.

Lemma Legacy_NextBatch_loop_Next_seq (values : list F)
    (p : Legacy.peakDetector F) (signals : list Signal) (i : nat) :
  (i + length values <= length signals)%nat →
  Legacy.NextBatch_loop Pow p signals i values
  = '(p', out) ← Legacy.Next_seq Pow p values;
    Some (p', take i signals ++ out ++ drop (i + length values) signals).
Proof.
  revert p signals i.
  induction values as [|v values IH]; intros p signals i Hlen.
  - cbn. by rewrite Nat.add_0_r, take_drop.
  - cbn in *. destruct (Legacy.Next Pow p v) as [[p1 s]|]; cbn; [|done].
    rewrite IH by (rewrite length_insert; lia).
    destruct (Legacy.Next_seq Pow p1 values) as [[p' out]|]; cbn; [|done].
    rewrite (take_S_r _ _ s) by (apply list_lookup_insert_eq; lia).
    rewrite take_insert_ge, drop_insert_lt by lia.
    rewrite <- app_assoc, Nat.add_succ_r. done.
Qed.

Lemma Legacy_NextBatch_Next_seq (p : Legacy.peakDetector F)
    (values : list F) :
  Legacy.NextBatch Pow p values = Legacy.Next_seq Pow p values.
Proof.
  unfold Legacy.NextBatch. rewrite Legacy_NextBatch_loop_Next_seq
    by (rewrite length_replicate; lia).
  destruct (Legacy.Next_seq Pow p values) as [[p' out]|] eqn:Hseq; cbn;
    [|done].
  apply Legacy_Next_seq_length in Hseq.
  rewrite drop_ge by (rewrite length_replicate; lia).
  by rewrite app_nil_r.
Qed.

End LegacyCalls.

(** X15. [Initialize] of the recomputing detector returns
    [ErrInvalidInitialValues] exactly when the seed is empty, leaving every
    field but [lag] as it was.  On a non-empty seed it does not reset the
    index: with the index inside the new window it succeeds, the window is
    the seed, and the slot at the index of the two statistics slices holds
    the results of [meanStdDev] on the seed; with the index at or beyond the
    new length it panics on the assignment. *)
Theorem Legacy_Initialize_outcomes {F : Type} {A : Arith F}
    (Pow : F → F → F) (p : Legacy.peakDetector F)
    (influence' threshold' : F) (seed : list F) :
  ((∃ p', Legacy.Initialize Pow p influence' threshold' seed
          = Some (p', Some ErrInvalidInitialValues)) ↔ seed = [])
  ∧ (seed = [] →
     Legacy.Initialize Pow p influence' threshold' seed
     = Some ({| Legacy.index := Legacy.index p;
                Legacy.influence := Legacy.influence p;
                Legacy.lag := 0%N;
                Legacy.cache := Legacy.cache p;
                Legacy.meanCache := Legacy.meanCache p;
                Legacy.stdDevCache := Legacy.stdDevCache p;
                Legacy.threshold := Legacy.threshold p |},
             Some ErrInvalidInitialValues))
  ∧ (seed ≠ [] → (Legacy.index p < uint_of_len seed)%N →
     ∃ p', Legacy.Initialize Pow p influence' threshold' seed
           = Some (p', None)
           ∧ Legacy.index p' = Legacy.index p
           ∧ Legacy.lag p' = uint_of_len seed
           ∧ Legacy.cache p' = seed
           ∧ length (Legacy.meanCache p') = length seed
           ∧ length (Legacy.stdDevCache p') = length seed
           ∧ Legacy.meanCache p' !! N.to_nat (Legacy.index p)
             = Some (meanStdDev Pow seed).1
           ∧ Legacy.stdDevCache p' !! N.to_nat (Legacy.index p)
             = Some (meanStdDev Pow seed).2
           ∧ Legacy.influence p' = influence'
           ∧ Legacy.threshold p' = threshold')
  ∧ (seed ≠ [] → (uint_of_len seed <= Legacy.index p)%N →
     Legacy.Initialize Pow p influence' threshold' seed = None).
Proof.
  assert (seed ≠ [] → (uint_of_len seed =? 0)%N = false) as Hnz.
  { intros Hseed. apply N.eqb_neq. unfold uint_of_len.
    destruct seed; [done|]. cbn. lia. }
  assert (seed ≠ [] → (Legacy.index p < uint_of_len seed)%N →
          ∃ p', Legacy.Initialize Pow p influence' threshold' seed
                = Some (p', None)
                ∧ Legacy.index p' = Legacy.index p
                ∧ Legacy.lag p' = uint_of_len seed
                ∧ Legacy.cache p' = seed
                ∧ length (Legacy.meanCache p') = length seed
                ∧ length (Legacy.stdDevCache p') = length seed
                ∧ Legacy.meanCache p' !! N.to_nat (Legacy.index p)
                  = Some (meanStdDev Pow seed).1
                ∧ Legacy.stdDevCache p' !! N.to_nat (Legacy.index p)
                  = Some (meanStdDev Pow seed).2
                ∧ Legacy.influence p' = influence'
                ∧ Legacy.threshold p' = threshold') as Hok.
  { intros Hseed Hidx. unfold Legacy.Initialize. rewrite (Hnz Hseed).
    destruct (meanStdDev Pow seed) as [mean sd].
    assert (N.to_nat (Legacy.index p)
            < length (replicate (N.to_nat (uint_of_len seed)) (@fzero F A)))%nat
      as Hlt by (rewrite length_replicate; lia).
    rewrite !Legacy_store_Some by done. cbn.
    eexists. split; [reflexivity|]. cbn.
    rewrite !length_insert, !length_replicate.
    rewrite !list_lookup_insert_eq by done.
    unfold uint_of_len. rewrite Nat2N.id. done. }
  assert (seed ≠ [] → (uint_of_len seed <= Legacy.index p)%N →
          Legacy.Initialize Pow p influence' threshold' seed = None) as Hko.
  { intros Hseed Hidx. unfold Legacy.Initialize. rewrite (Hnz Hseed).
    destruct (meanStdDev Pow seed) as [mean sd].
    rewrite !Legacy_store_None by (rewrite length_replicate; lia). done. }
  split; [split|split; [|split; [exact Hok|exact Hko]]].
  - intros [p' Hinit]. destruct seed as [|x seed]; [done|].
    destruct (N.lt_ge_cases (Legacy.index p) (uint_of_len (x :: seed)))
      as [Hlt|Hge].
    + destruct (Hok ltac:(done) Hlt) as (p1 & Hinit1 & _).
      rewrite Hinit in Hinit1. discriminate.
    + rewrite (Hko ltac:(done) Hge) in Hinit. discriminate.
  - intros ->. by eexists.
  - by intros ->.
Qed.

(** ** The recomputing detector and the current one *)

Section Rotation.
Context {A : Type}.

Lemma rotl1_Permutation (l : list A) : rotl1 l ≡ₚ l.
Proof. unfold rotl1. rewrite Permutation_app_comm. by rewrite take_drop. Qed.

Lemma length_rotl1 (l : list A) : length (rotl1 l) = length l.
Proof. apply Permutation_length, rotl1_Permutation. Qed.

(** Writing one slot further in the list is writing at the slot in the
    list with its first element moved to the end. *)
Lemma rotl1_insert (l : list A) (c : nat) (v : A) :
  (c < length l)%nat →
  rotl1 (<[(if decide (S c = length l) then 0 else S c) := v]> l)
  = <[c := v]> (rotl1 l).
Proof.
  intros Hc. destruct l as [|x l]; [cbn in Hc; lia|].
  unfold rotl1. cbn [length] in *.
  destruct (decide (S c = S (length l))) as [Heq|Hne].
  - cbn. rewrite !drop_0, take_0.
    replace c with (length l + 0)%nat by lia.
    by rewrite insert_app_r.
  - cbn. rewrite !drop_0, take_0. by rewrite insert_app_l by lia.
Qed.

End Rotation.

Section Simulation.
Local Open Scope R_scope.

Variable Pow : R → R → R.
Hypothesis Pow_2 : ∀ x, Pow x 2 = x * x.

Lemma meanStdDev_true (sample : list R) :
  meanStdDev Pow sample = (true_mean sample, sqrt (true_variance sample)).
Proof. by rewrite (meanStdDev_sums Pow Pow_2). Qed.

Lemma to_nat_wrap (i w : N) (W : nat) :
  (i < w)%N → (w < uint_modulus)%N → w = N.of_nat W →
  N.to_nat (if (uint_incr i =? w)%N then 0%N else uint_incr i)
  = if decide (S (N.to_nat i) = W) then 0%nat else S (N.to_nat i).
Proof.
  intros Hi Hw ->. rewrite uint_incr_wrap by done.
  destruct (decide (S (N.to_nat i) = W)) as [Heq|Hne].
  - replace (i + 1)%N with (N.of_nat W) by lia.
    by rewrite N.Div0.mod_same.
  - rewrite N.mod_small by lia. lia.
Qed.

(** One value through both detectors. *)
Lemma legacy_matches_Next (o : Legacy.peakDetector R) (p : peakDetector R)
    (v : R) :
  legacy_matches o p → (Legacy.lag o < uint_modulus)%N →
  ∃ o' p' s,
    Legacy.Next Pow o v = Some (o', s)
    ∧ Next p v = Some (p', s)
    ∧ legacy_matches o' p'
    ∧ Legacy.lag o' = Legacy.lag o
    ∧ Legacy.index o'
      = ((Legacy.index o + 1) mod Legacy.lag o)%N.
Proof.
  intros (Hinf & Hthr & Hlag & Hlm & Hls & Hidx & Hcur & Hcache & Hmean
          & Hsd & Hval & Hp & Hex) Hmax.
  destruct (Next_folds p v Hp) as (p' & Hnext & Hnx & Hcache' & Hval').
  pose proof (Next_Ready _ _ _ _ Hp Hnext) as Hp'.
  assert (cache (stats p) ≠ []) as Hne.
  { rewrite Hcache. intros Hnil. apply (f_equal length) in Hnil.
    rewrite length_rotl1 in Hnil. unfold uint_of_len in Hlag.
    cbn in Hnil. lia. }
  pose proof (next_exact _ _ _ _ _ Hne Hex Hnx) as Hex'.
  pose proof (next_cursor _ _ _ _ Hnx) as (Hcur' & HlenU').
  destruct Hp as ((HlenU & _ & _) & _).
  assert (cacheLenU (stats p) = Legacy.lag o) as HW.
  { rewrite HlenU, Hcache, Hlag. unfold uint_of_len.
    by rewrite length_rotl1. }
  set (i' := if (uint_incr (Legacy.index o) =? Legacy.lag o)%N
             then 0%N else uint_incr (Legacy.index o)).
  assert (N.to_nat i'
          = if decide (S (N.to_nat (Legacy.index o))
                       = length (Legacy.cache o))
            then 0%nat else S (N.to_nat (Legacy.index o))) as Hi'
    by (by apply to_nat_wrap).
  assert (N.to_nat (Legacy.index o) < length (Legacy.cache o))%nat as Hc
    by (unfold uint_of_len in Hlag; lia).
  assert (N.to_nat i' < length (Legacy.cache o))%nat as Hc'
    by (rewrite Hi'; destruct (decide _); lia).
  set (f := (classify p v).2) in *.
  assert (Legacy.Next Pow o v
          = Some ({| Legacy.index := i';
                     Legacy.influence := Legacy.influence o;
                     Legacy.lag := Legacy.lag o;
                     Legacy.cache := <[N.to_nat i' := f]> (Legacy.cache o);
                     Legacy.meanCache :=
                       <[N.to_nat i' :=
                           true_mean (<[N.to_nat i' := f]> (Legacy.cache o))]>
                         (Legacy.meanCache o);
                     Legacy.stdDevCache :=
                       <[N.to_nat i' :=
                           sqrt (true_variance
                                   (<[N.to_nat i' := f]> (Legacy.cache o)))]>
                         (Legacy.stdDevCache o);
                     Legacy.threshold := Legacy.threshold o |},
                  (classify p v).1)) as HNext.
  { unfold Legacy.Next. fold i'. rewrite Hmean, Hsd, Hval.
    cbn -[meanStdDev].
    subst f. rewrite classify_exact, Hinf, Hthr. unfold Rgtb.
    destruct (Rgt_dec (Rabs (v - prevMean p)) (threshold p * prevStdDev p));
      cbn -[meanStdDev]; rewrite !Legacy_store_Some by done;
      cbn -[meanStdDev]; rewrite meanStdDev_true;
      rewrite !Legacy_store_Some by (by rewrite ?Hlm, ?Hls); cbn; [|done].
    by destruct (Rgt_dec v (prevMean p)). }
  eexists _, p', _. split; [exact HNext|]. split; [exact Hnext|].
  split; [|split; [done|]].
  - unfold legacy_matches. cbn.
    rewrite !length_insert.
    apply Next_Some_inv in Hnext as (_ & _ & _ & Hinf' & Hthr' & _).
    apply next_Some_inv in Hnx as (_ & _ & _ & Hm' & Hs' & _).
    destruct Hex' as (Hfl' & Hmean' & Hvar').
    assert (cache (stats p')
            = rotl1 (<[N.to_nat i' := f]> (Legacy.cache o))) as Hrot.
    { rewrite Hcache', Hcache, Hcur, Hi'. symmetry. by apply rotl1_insert. }
    split; [congruence|]. split; [congruence|].
    split; [by unfold uint_of_len in *; rewrite length_insert|].
    split; [done|]. split; [done|].
    split; [unfold uint_of_len in Hlag; lia|].
    split; [by rewrite Hcur', Hcur, HW|]. split; [done|].
    split.
    { rewrite list_lookup_insert_eq by (by rewrite Hlm).
      rewrite Hm', Hmean', Hrot.
      by rewrite (true_mean_Permutation _ _ (rotl1_Permutation _)). }
    split.
    { rewrite list_lookup_insert_eq by (by rewrite Hls).
      rewrite Hs'. cbn. rewrite Hvar', Hrot.
      by rewrite (true_variance_Permutation _ _ (rotl1_Permutation _)). }
    split; [by rewrite list_lookup_insert_eq, Hval' by done|].
    split; [done|]. by split.
  - cbn. subst i'. by rewrite uint_incr_wrap.
Qed.

Lemma legacy_matches_Next_seq (vs : list R) (o : Legacy.peakDetector R)
    (p : peakDetector R) :
  legacy_matches o p → (Legacy.lag o < uint_modulus)%N →
  ∃ o' p' signals,
    Legacy.Next_seq Pow o vs = Some (o', signals)
    ∧ Next_seq p vs = Some (p', signals)
    ∧ legacy_matches o' p'
    ∧ Legacy.lag o' = Legacy.lag o
    ∧ Legacy.index o'
      = ((Legacy.index o + N.of_nat (length vs)) mod Legacy.lag o)%N.
Proof.
  revert o p. induction vs as [|v vs IH]; intros o p Hop Hmax.
  - exists o, p, []. split; [done|]. split; [done|]. split; [done|].
    split; [done|]. cbn. rewrite N.add_0_r, N.mod_small; [done|].
    by destruct Hop as (_ & _ & _ & _ & _ & Hidx & _).
  - destruct (legacy_matches_Next o p v Hop Hmax)
      as (o1 & p1 & s & Ho1 & Hp1 & Hop1 & Hlag1 & Hidx1).
    destruct (IH o1 p1 Hop1) as (o2 & p2 & out & Ho2 & Hp2 & Hop2 & Hlag2
                                 & Hidx2); [by rewrite Hlag1|].
    exists o2, p2, (s :: out). cbn. rewrite Ho1, Hp1. cbn.
    rewrite Ho2, Hp2. cbn. split; [done|]. split; [done|]. split; [done|].
    split; [congruence|].
    rewrite Hidx2, Hlag1, Hidx1, N.Div0.add_mod_idemp_l. f_equal. lia.
Qed.

(** The two detectors after [Initialize], the current one on the seed with
    its first value moved to the end. *)
Lemma legacy_matches_Initialize (influence' threshold' : R) (seed : list R) :
  seed ≠ [] →
  ∃ o p,
    Legacy.Initialize Pow Legacy.NewPeakDetector influence' threshold' seed
    = Some (o, None)
    ∧ Initialize NewPeakDetector influence' threshold' (rotl1 seed)
      = Some (p, None)
    ∧ legacy_matches o p
    ∧ Legacy.lag o = uint_of_len seed
    ∧ Legacy.index o = 0%N
    ∧ Legacy.cache o = seed.
Proof.
  intros Hseed.
  assert (rotl1 seed ≠ []) as Hrot.
  { intros Hnil. apply (f_equal length) in Hnil.
    rewrite length_rotl1 in Hnil. by destruct seed. }
  destruct (Initialize_exact NewPeakDetector influence' threshold'
              (rotl1 seed) Hrot)
    as (p & Hp & Hmean & Hsd & Hinf & Hthr & Hlast & Hcache & Hcur & Hex).
  pose proof (NewPeakDetector_Initialize_Ready _ _ _ _ Hp) as HRp.
  assert (0 < length seed)%nat as Hpos by (destruct seed; [done|cbn; lia]).
  assert ((uint_of_len seed =? 0)%N = false) as Hnz
    by (apply N.eqb_neq; unfold uint_of_len; lia).
  eexists _, p. split.
  { unfold Legacy.Initialize. rewrite Hnz, meanStdDev_true.
    rewrite !Legacy_store_Some
      by (rewrite length_replicate; unfold uint_of_len; cbn; lia).
    reflexivity. }
  split; [done|]. split; [|by cbn].
  unfold legacy_matches. cbn.
  rewrite !length_insert, !length_replicate.
  split; [done|]. split; [done|]. split; [done|].
  unfold uint_of_len. rewrite Nat2N.id.
  split; [done|]. split; [done|]. split; [lia|].
  split; [done|]. split; [done|].
  rewrite !list_lookup_insert_eq by (rewrite length_replicate; lia).
  rewrite Hmean, Hsd.
  rewrite (true_mean_Permutation _ _ (rotl1_Permutation seed)).
  rewrite (true_variance_Permutation _ _ (rotl1_Permutation seed)).
  split; [done|]. split; [done|].
  split; [|by split].
  destruct seed as [|x seed]; [done|]. unfold rotl1 in Hlast. cbn in Hlast.
  rewrite drop_0, take_0, last_snoc in Hlast. change (N.to_nat 0) with 0%nat. cbn. congruence.
Qed.

End Simulation.

(** X16. In exact arithmetic (where [math.Pow(x, 2)] is [x * x]) a new
    recomputing detector initialized with [W] values (a length below
    [2^64]) answers every run of values; afterwards its window still has
    [W] values, its index is the number of values modulo [W], and the slot
    at its index holds, in the three slices, the value written last, the
    mean of the window and the standard deviation of the window. *)
Theorem Legacy_keeps_true_statistics (Pow : R → R → R)
    (influence' threshold' : R) (seed vs : list R) :
  (∀ x, Pow x 2 = x * x)%R →
  seed ≠ [] →
  (uint_of_len seed < uint_modulus)%N →
  ∃ o o' signals,
    Legacy.Initialize Pow Legacy.NewPeakDetector influence' threshold' seed
    = Some (o, None)
    ∧ Legacy.Next_seq Pow o vs = Some (o', signals)
    ∧ length signals = length vs
    ∧ length (Legacy.cache o') = length seed
    ∧ Legacy.index o' = (N.of_nat (length vs) mod uint_of_len seed)%N
    ∧ Legacy.meanCache o' !! N.to_nat (Legacy.index o')
      = Some (true_mean (Legacy.cache o'))
    ∧ Legacy.stdDevCache o' !! N.to_nat (Legacy.index o')
      = Some (sqrt (true_variance (Legacy.cache o'))).
Proof.
  intros HPow Hseed Hmax.
  destruct (legacy_matches_Initialize Pow HPow influence' threshold' seed
              Hseed) as (o & p & Ho & _ & Hop & Hlag & Hidx & _).
  destruct (legacy_matches_Next_seq Pow HPow vs o p Hop)
    as (o' & p' & signals & Hseq & _ & Hop' & Hlag' & Hidx');
    [by rewrite Hlag|].
  exists o, o', signals. split; [done|]. split; [done|].
  split; [by eapply Legacy_Next_seq_length|].
  destruct Hop' as (_ & _ & HlagW & _ & _ & _ & _ & Hcache & Hmean & Hsd & _
                    & (_ & Hpm & Hps) & (_ & Hm & Hv)).
  split.
  { rewrite Hlag', Hlag in HlagW. unfold uint_of_len in HlagW. lia. }
  split; [by rewrite Hidx', Hidx, Hlag|].
  rewrite Hmean, Hsd, Hpm, Hps, Hm. cbn. rewrite Hv, Hcache.
  rewrite (true_mean_Permutation _ _ (rotl1_Permutation _)).
  by rewrite (true_variance_Permutation _ _ (rotl1_Permutation _)).
Qed.

Lemma Legacy_keeps_true_statistics_witness :
  (∀ x, (λ x _ : R, x * x) x 2 = x * x)%R
  ∧ [1; 2; 3]%R ≠ []
  ∧ (uint_of_len [1; 2; 3]%R < uint_modulus)%N
  ∧ ∃ o o' signals,
      Legacy.Initialize (λ x _ : R, x * x)%R Legacy.NewPeakDetector 0%R 5%R
        [1; 2; 3]%R
      = Some (o, None)
      ∧ Legacy.Next_seq (λ x _ : R, x * x)%R o [4; 5]%R = Some (o', signals)
      ∧ length signals = length [4; 5]%R
      ∧ length (Legacy.cache o') = length [1; 2; 3]%R
      ∧ Legacy.index o'
        = (N.of_nat (length [4; 5]%R) mod uint_of_len [1; 2; 3]%R)%N
      ∧ Legacy.meanCache o' !! N.to_nat (Legacy.index o')
        = Some (true_mean (Legacy.cache o'))
      ∧ Legacy.stdDevCache o' !! N.to_nat (Legacy.index o')
        = Some (sqrt (true_variance (Legacy.cache o'))).
Proof.
  split; [reflexivity|]. split; [discriminate|]. split; [reflexivity|].
  apply (Legacy_keeps_true_statistics (λ x _ : R, x * x)%R 0%R 5%R
           [1; 2; 3]%R [4; 5]%R).
  - reflexivity.
  - discriminate.
  - reflexivity.
Defined.

(** X17. In exact arithmetic (where [math.Pow(x, 2)] is [x * x]) the
    current detector answers as the recomputing one did, up to the place of
    the first seed value: the recomputing detector reads [initialValues[0]]
    as the most recent value and writes the slots that follow it first, so on
    a seed it returns, for every run of values, influence and threshold,
    the signals that the current detector returns on that seed with its
    first value moved to the end. *)
Theorem Legacy_agrees_on_rotated_seed (Pow : R → R → R)
    (influence' threshold' : R) (seed vs : list R) :
  (∀ x, Pow x 2 = x * x)%R →
  seed ≠ [] →
  (uint_of_len seed < uint_modulus)%N →
  ∃ o p o' p' signals,
    Legacy.Initialize Pow Legacy.NewPeakDetector influence' threshold' seed
    = Some (o, None)
    ∧ Initialize NewPeakDetector influence' threshold' (rotl1 seed)
      = Some (p, None)
    ∧ Legacy.NextBatch Pow o vs = Some (o', signals)
    ∧ NextBatch p vs = Some (p', signals)
    ∧ length signals = length vs.
Proof.
  intros HPow Hseed Hmax.
  destruct (legacy_matches_Initialize Pow HPow influence' threshold' seed
              Hseed) as (o & p & Ho & Hp & Hop & Hlag & _).
  destruct (legacy_matches_Next_seq Pow HPow vs o p Hop)
    as (o' & p' & signals & Hseq & Hseq' & _); [by rewrite Hlag|].
  exists o, p, o', p', signals.
  rewrite Legacy_NextBatch_Next_seq, NextBatch_Next_seq.
  split; [done|]. split; [done|]. split; [done|]. split; [done|].
  by eapply Next_seq_length.
Qed.

Lemma Legacy_agrees_on_rotated_seed_witness :
  (∀ x, (λ x _ : R, x * x) x 2 = x * x)%R
  ∧ [1; 2; 3]%R ≠ []
  ∧ (uint_of_len [1; 2; 3]%R < uint_modulus)%N
  ∧ ∃ o p o' p' signals,
      Legacy.Initialize (λ x _ : R, x * x)%R Legacy.NewPeakDetector 0%R 5%R
        [1; 2; 3]%R
      = Some (o, None)
      ∧ Initialize NewPeakDetector 0%R 5%R (rotl1 [1; 2; 3]%R)
        = Some (p, None)
      ∧ Legacy.NextBatch (λ x _ : R, x * x)%R o [40; 5]%R
        = Some (o', signals)
      ∧ NextBatch p [40; 5]%R = Some (p', signals)
      ∧ length signals = length [40; 5]%R.
Proof.
  split; [reflexivity|]. split; [discriminate|]. split; [reflexivity|].
  apply (Legacy_agrees_on_rotated_seed (λ x _ : R, x * x)%R 0%R 5%R
           [1; 2; 3]%R [40; 5]%R).
  - reflexivity.
  - discriminate.
  - reflexivity.
Defined.

(** ** NaN on binary64 *)

Section NaN.

Lemma SFcompare_refl (s : SpecFloat.spec_float) :
  s ≠ SpecFloat.S754_nan → SpecFloat.SFcompare s s = Some Eq.
Proof.
  destruct s as [b|b| |b m e]; intros Hs; [done| |done|].
  - by destruct b.
  - cbn. by destruct b; rewrite Z.compare_refl, Pos.compare_cont_refl.
Qed.

Lemma is_nan_Prim2SF (x : float) :
  PrimFloat.is_nan x = true ↔ FloatOps.Prim2SF x = SpecFloat.S754_nan.
Proof.
  unfold PrimFloat.is_nan. rewrite FloatAxioms.eqb_spec.
  unfold SpecFloat.SFeqb. split.
  - intros Hn. destruct (FloatOps.Prim2SF x) as [b|b| |b m e] eqn:E;
      [|  |done|]; rewrite SFcompare_refl in Hn by done; done.
  - by intros ->.
Qed.

Lemma add_nan_l (x y : float) :
  PrimFloat.is_nan x = true → PrimFloat.is_nan (x + y)%float = true.
Proof.
  rewrite !is_nan_Prim2SF, FloatAxioms.add_spec. intros ->.
  unfold FloatAxioms.SF64add. by destruct (FloatOps.Prim2SF y).
Qed.

Lemma add_nan_r (x y : float) :
  PrimFloat.is_nan y = true → PrimFloat.is_nan (x + y)%float = true.
Proof.
  rewrite !is_nan_Prim2SF, FloatAxioms.add_spec. intros ->.
  unfold FloatAxioms.SF64add. by destruct (FloatOps.Prim2SF x).
Qed.

Lemma sub_nan_l (x y : float) :
  PrimFloat.is_nan x = true → PrimFloat.is_nan (x - y)%float = true.
Proof.
  rewrite !is_nan_Prim2SF, FloatAxioms.sub_spec. intros ->.
  unfold FloatAxioms.SF64sub. by destruct (FloatOps.Prim2SF y).
Qed.

Lemma sub_nan_r (x y : float) :
  PrimFloat.is_nan y = true → PrimFloat.is_nan (x - y)%float = true.
Proof.
  rewrite !is_nan_Prim2SF, FloatAxioms.sub_spec. intros ->.
  unfold FloatAxioms.SF64sub. by destruct (FloatOps.Prim2SF x).
Qed.

Lemma mul_nan_l (x y : float) :
  PrimFloat.is_nan x = true → PrimFloat.is_nan (x * y)%float = true.
Proof.
  rewrite !is_nan_Prim2SF, FloatAxioms.mul_spec. intros ->.
  unfold FloatAxioms.SF64mul. by destruct (FloatOps.Prim2SF y).
Qed.

Lemma mul_nan_r (x y : float) :
  PrimFloat.is_nan y = true → PrimFloat.is_nan (x * y)%float = true.
Proof.
  rewrite !is_nan_Prim2SF, FloatAxioms.mul_spec. intros ->.
  unfold FloatAxioms.SF64mul. by destruct (FloatOps.Prim2SF x).
Qed.

Lemma div_nan_l (x y : float) :
  PrimFloat.is_nan x = true → PrimFloat.is_nan (x / y)%float = true.
Proof.
  rewrite !is_nan_Prim2SF, FloatAxioms.div_spec. intros ->.
  unfold FloatAxioms.SF64div. by destruct (FloatOps.Prim2SF y).
Qed.

Lemma abs_nan (x : float) :
  PrimFloat.is_nan x = true → PrimFloat.is_nan (PrimFloat.abs x) = true.
Proof.
  rewrite !is_nan_Prim2SF, FloatAxioms.abs_spec. by intros ->.
Qed.

Lemma ltb_nan_l (x y : float) :
  PrimFloat.is_nan x = true → PrimFloat.ltb x y = false.
Proof.
  rewrite is_nan_Prim2SF, FloatAxioms.ltb_spec. by intros ->.
Qed.

Lemma ltb_nan_r (x y : float) :
  PrimFloat.is_nan y = true → PrimFloat.ltb x y = false.
Proof.
  rewrite is_nan_Prim2SF, FloatAxioms.ltb_spec. intros ->.
  unfold SpecFloat.SFltb.
  by destruct (FloatOps.Prim2SF x) as [b|b| |b m e]; try destruct b.
Qed.

(** A comparison with NaN on either side is false: the value is Neutral
    and is folded as it is. *)
Lemma classify_nan (p : peakDetector float) (v : float) :
  PrimFloat.is_nan v = true ∨ PrimFloat.is_nan (prevMean p) = true
  ∨ PrimFloat.is_nan (prevStdDev p) = true
  ∨ PrimFloat.is_nan (threshold p) = true →
  classify p v = (SignalNeutral, v).
Proof.
  intros Hnan. unfold classify. cbn [fgt fabs fsub fmul binary64].
  assert (PrimFloat.ltb (threshold p * prevStdDev p)%float
            (PrimFloat.abs (v - prevMean p)%float) = false) as ->; [|done].
  destruct Hnan as [Hv|[Hm|[Hs|Ht]]].
  - by apply ltb_nan_r, abs_nan, sub_nan_l.
  - by apply ltb_nan_r, abs_nan, sub_nan_r.
  - by apply ltb_nan_l, mul_nan_r.
  - by apply ltb_nan_l, mul_nan_l.
Qed.

(** Once the value or the mean is NaN, the mean is NaN after the call. *)
Lemma Next_nan (p : peakDetector float) (v : float) :
  Ready p →
  PrimFloat.is_nan v = true ∨ PrimFloat.is_nan (prevMean p) = true →
  ∃ p', Next p v = Some (p', SignalNeutral)
        ∧ Ready p'
        ∧ prevValue p' = v
        ∧ PrimFloat.is_nan (prevMean p') = true.
Proof.
  intros Hp Hnan.
  destruct (Next_folds p v Hp) as (p' & Hnext & Hnx & _ & Hval).
  pose proof (Next_Ready _ _ _ _ Hp Hnext) as Hp'.
  rewrite classify_nan in Hnext, Hnx, Hval by tauto.
  cbn [fst snd] in Hnext, Hnx, Hval.
  exists p'. split; [done|]. split; [done|]. split; [done|].
  destruct Hp as (Hw & Hmean & _).
  destruct (in_window_lookup _ Hw) as [old Hold].
  unfold next in Hnx. rewrite Hold in Hnx. injection Hnx as _ <- _.
  cbn [fadd fsub fdiv binary64]. destruct Hnan as [Hv|Hm].
  - by apply add_nan_r, div_nan_l, sub_nan_l.
  - apply add_nan_l. by rewrite <- Hmean.
Qed.

Lemma Next_seq_nan_mean (vs : list float) (p : peakDetector float) :
  Ready p → PrimFloat.is_nan (prevMean p) = true →
  ∃ p', Next_seq p vs = Some (p', replicate (length vs) SignalNeutral)
        ∧ PrimFloat.is_nan (prevMean p') = true.
Proof.
  revert p. induction vs as [|w vs IH]; intros p Hp Hm.
  - by exists p.
  - destruct (Next_nan p w Hp) as (p1 & Hnext & Hp1 & _ & Hm1); [by right|].
    destruct (IH p1 Hp1 Hm1) as (p' & Hseq & Hm').
    exists p'. cbn [Next_seq]. rewrite Hnext. cbn. rewrite Hseq. done.
Qed.

End NaN.

(** X18. On binary64 a value is Neutral, and is folded into the window as
    it is, whenever it is NaN or the mean, the standard deviation or the
    threshold it is compared with is NaN: the comparison is then false.
    This is what follows a standard deviation that [next] returned as the
    square root of a negative variance. *)
Theorem NaN_is_Neutral (p : peakDetector float) (v : float) :
  Ready p →
  PrimFloat.is_nan v = true ∨ PrimFloat.is_nan (prevMean p) = true
  ∨ PrimFloat.is_nan (prevStdDev p) = true
  ∨ PrimFloat.is_nan (threshold p) = true →
  ∃ p', Next p v = Some (p', SignalNeutral)
        ∧ prevValue p' = v
        ∧ cache (stats p')
          = <[N.to_nat (mIndex (stats p)) := v]> (cache (stats p)).
Proof.
  intros Hp Hnan.
  destruct (Next_folds p v Hp) as (p' & Hnext & _ & Hcache & Hval).
  rewrite classify_nan in Hnext, Hcache, Hval by done.
  by exists p'.
Qed.

Lemma NaN_is_Neutral_witness :
  Ready sample_detector
  ∧ (PrimFloat.is_nan nan = true
     ∨ PrimFloat.is_nan (prevMean sample_detector) = true
     ∨ PrimFloat.is_nan (prevStdDev sample_detector) = true
     ∨ PrimFloat.is_nan (threshold sample_detector) = true)
  ∧ ∃ p', Next sample_detector nan = Some (p', SignalNeutral)
          ∧ prevValue p' = nan
          ∧ cache (stats p')
            = <[N.to_nat (mIndex (stats sample_detector)) := nan]>
                (cache (stats sample_detector)).
Proof.
  split; [exact sample_detector_Ready|].
  split; [left; reflexivity|].
  apply (NaN_is_Neutral sample_detector nan).
  - exact sample_detector_Ready.
  - left. reflexivity.
Defined.

(** X19. On binary64 one NaN value silences a detector for good: the mean
    of the window becomes NaN and stays NaN whatever comes next, so that
    value and every later value is Neutral. *)
Theorem NaN_value_silences_detector (p : peakDetector float) (v : float)
    (vs : list float) :
  Ready p →
  PrimFloat.is_nan v = true →
  ∃ p', Next_seq p (v :: vs)
        = Some (p', replicate (S (length vs)) SignalNeutral)
        ∧ PrimFloat.is_nan (prevMean p') = true.
Proof.
  intros Hp Hv.
  destruct (Next_nan p v Hp) as (p1 & Hnext & Hp1 & _ & Hm1); [by left|].
  destruct (Next_seq_nan_mean vs p1 Hp1 Hm1) as (p' & Hseq & Hm').
  exists p'. cbn [Next_seq]. rewrite Hnext. cbn. rewrite Hseq. done.
Qed.

Lemma NaN_value_silences_detector_witness :
  Ready sample_detector
  ∧ PrimFloat.is_nan nan = true
  ∧ ∃ p', Next_seq sample_detector (nan :: [100; 0]%float)
          = Some (p', replicate (S (length [100; 0]%float)) SignalNeutral)
          ∧ PrimFloat.is_nan (prevMean p') = true.
Proof.
  split; [exact sample_detector_Ready|]. split; [reflexivity|].
  apply (NaN_value_silences_detector sample_detector nan [100; 0]%float).
  - exact sample_detector_Ready.
  - reflexivity.
Defined.

(** ** Multiplying every value by a positive constant *)

Section Scale.
Local Open Scope R_scope.

Lemma Rsum_scale (k : R) (l : list R) : Rsum (Rmult k <$> l) = k * Rsum l.
Proof.
  induction l as [|x l IH].
  - cbn. lra.
  - rewrite fmap_cons, !Rsum_cons, IH. lra.
Qed.

Lemma true_mean_scale (k : R) (l : list R) :
  true_mean (Rmult k <$> l) = k * true_mean l.
Proof.
  unfold true_mean. rewrite Rsum_scale, length_fmap. unfold Rdiv. ring.
Qed.

Lemma true_variance_scale (k : R) (l : list R) :
  true_variance (Rmult k <$> l) = k * k * true_variance l.
Proof.
  unfold true_variance.
  rewrite true_mean_scale, length_fmap, <- list_fmap_compose.
  assert (((λ x, (x - k * true_mean l) * (x - k * true_mean l)) ∘ Rmult k)
            <$> l
          = Rmult (k * k)
              <$> ((λ x, (x - true_mean l) * (x - true_mean l)) <$> l)) as ->.
  { rewrite <- list_fmap_compose. apply list_fmap_ext.
    intros i x _. cbn. ring. }
  rewrite Rsum_scale. unfold Rdiv. ring.
Qed.

Lemma sqrt_scale (k v : R) : 0 < k → sqrt (k * k * v) = k * sqrt v.
Proof.
  intros Hk. rewrite sqrt_mult_alt by (apply Rle_0_sqr).
  by rewrite sqrt_square by lra.
Qed.

Lemma next_scale (k : R) (m n m' : movingMeanStdDev R) (v mean sd : R) :
  0 < k → scale_stats k m n →
  next m v = Some (m', (mean, sd)) →
  ∃ n', next n (k * v) = Some (n', (k * mean, k * sd))
        ∧ scale_stats k m' n'.
Proof.
  intros Hk (Hc & Hfl & HlenU & Hcur & Hmean & Hvar). unfold next.
  rewrite Hc, Hcur, list_lookup_fmap.
  destruct (cache m !! N.to_nat (mIndex m)) as [old|]; [|done].
  intros [= <- <- <-]. cbn. rewrite Hfl, HlenU, Hmean, Hvar.
  assert (k * k * prevVariance m
          + (k * v - (k * mPrevMean m + (k * v - k * old) / cacheLen m)
             + k * old - k * mPrevMean m)
            * (k * v - k * old) / cacheLen m
          = k * k
            * (prevVariance m
               + (v - (mPrevMean m + (v - old) / cacheLen m) + old
                  - mPrevMean m) * (v - old) / cacheLen m)) as ->
    by (unfold Rdiv; ring).
  assert (k * mPrevMean m + (k * v - k * old) / cacheLen m
          = k * (mPrevMean m + (v - old) / cacheLen m)) as ->
    by (unfold Rdiv; ring).
  rewrite sqrt_scale by done.
  eexists. split; [reflexivity|].
  unfold scale_stats. cbn. by rewrite list_fmap_insert.
Qed.

Lemma classify_scale (k : R) (p q : peakDetector R) (v : R) :
  0 < k → scale k p q →
  classify q (k * v) = ((classify p v).1, k * (classify p v).2).
Proof.
  intros Hk (_ & Hinf & _ & _ & Hmean & Hsd & Hval & Hthr).
  rewrite !classify_exact, Hinf, Hmean, Hsd, Hval, Hthr.
  replace (k * v - k * prevMean p) with (k * (v - prevMean p)) by ring.
  rewrite Rabs_mult, (Rabs_right k) by lra.
  replace (threshold p * (k * prevStdDev p))
    with (k * (threshold p * prevStdDev p)) by ring.
  destruct (Rgt_dec (Rabs (v - prevMean p)) (threshold p * prevStdDev p))
    as [Hsig|Hsig],
    (Rgt_dec (k * Rabs (v - prevMean p)) (k * (threshold p * prevStdDev p)))
    as [Hsig'|Hsig']; cbn.
  - destruct (Rgt_dec v (prevMean p)) as [Hgt|Hgt],
      (Rgt_dec (k * v) (k * prevMean p)) as [Hgt'|Hgt']; cbn.
    + f_equal. ring.
    + exfalso. apply Hgt'. by apply Rmult_lt_compat_l.
    + exfalso. apply Hgt. by apply (Rmult_lt_reg_l k).
    + f_equal. ring.
  - exfalso. apply Hsig'. by apply Rmult_lt_compat_l.
  - exfalso. apply Hsig. by apply (Rmult_lt_reg_l k).
  - done.
Qed.

Lemma Next_scale (k : R) (p q p' : peakDetector R) (v : R) (s : Signal) :
  0 < k → scale k p q → Next p v = Some (p', s) →
  ∃ q', Next q (k * v) = Some (q', s) ∧ scale k p' q'.
Proof.
  intros Hk Hpq. pose proof (classify_scale k p q v Hk Hpq) as Hcl.
  destruct Hpq as (Hidx & Hinf & Hlag & Hst & Hmean & Hsd & Hval & Hthr).
  rewrite !Next_unfold, Hcl. cbn.
  destruct (next (stats p) (classify p v).2) as [[m' [mean sd]]|] eqn:Hnext;
    [|done].
  destruct (next_scale _ _ _ _ _ _ _ Hk Hst Hnext) as (n' & Hnext' & Hst').
  rewrite Hnext'. cbn. intros [= <- <-]. eexists. split; [reflexivity|].
  unfold scale. cbn. by rewrite Hidx, Hlag.
Qed.

Lemma Next_seq_scale (k : R) (vs : list R) (p q p' : peakDetector R)
    (signals : list Signal) :
  0 < k → scale k p q → Next_seq p vs = Some (p', signals) →
  ∃ q', Next_seq q (Rmult k <$> vs) = Some (q', signals).
Proof.
  intros Hk. revert p q signals.
  induction vs as [|v vs IH]; intros p q signals Hpq.
  - intros [= <- <-]. by exists q.
  - cbn. destruct (Next p v) as [[p1 s]|] eqn:Hnext; [|done]. cbn.
    destruct (Next_seq p1 vs) as [[p2 out]|] eqn:Hseq; [|done]. cbn.
    intros [= <- <-].
    destruct (Next_scale _ _ _ _ _ _ Hk Hpq Hnext) as (q1 & Hnext' & Hpq1).
    destruct (IH _ _ _ Hpq1 Hseq) as (q2 & Hseq').
    exists q2. rewrite Hnext'. cbn. rewrite Hseq'. done.
Qed.

Lemma Initialize_scale (k influence' threshold' : R) (seed : list R)
    (p q : peakDetector R) :
  0 < k → seed ≠ [] →
  Initialize NewPeakDetector influence' threshold' seed = Some (p, None) →
  Initialize NewPeakDetector influence' threshold' (Rmult k <$> seed)
  = Some (q, None) →
  scale k p q.
Proof.
  intros Hk Hseed Hp Hq.
  assert (Rmult k <$> seed ≠ []) as Hseed' by by destruct seed.
  destruct (Initialize_nonempty NewPeakDetector influence' threshold' seed
              Hseed)
    as (p0 & Hp0 & Hsp & Hinfp & Hthrp & Hlagp & Hidxp & Hlastp).
  destruct (Initialize_nonempty NewPeakDetector influence' threshold'
              (Rmult k <$> seed) Hseed')
    as (q0 & Hq0 & Hsq & Hinfq & Hthrq & Hlagq & Hidxq & Hlastq).
  rewrite Hp in Hp0. injection Hp0 as <-.
  rewrite Hq in Hq0. injection Hq0 as <-.
  destruct (initialize_exact (stats NewPeakDetector) seed Hseed)
    as (m & Hm & Hcm & Hlm & Him & (Hfm & Hmm & Hvm)).
  destruct (initialize_exact (stats NewPeakDetector) (Rmult k <$> seed)
              Hseed')
    as (n & Hn & Hcn & Hln & Hin & (Hfn & Hmn & Hvn)).
  rewrite Hsp in Hm. injection Hm as <- Hmeanp Hsdp.
  rewrite Hsq in Hn. injection Hn as <- Hmeanq Hsdq.
  unfold scale, scale_stats.
  rewrite Hidxp, Hidxq, Hinfp, Hinfq, Hlagp, Hlagq, Hthrp, Hthrq.
  rewrite Hcm, Hcn, Hlm, Hln, Him, Hin, Hfm, Hfn, Hmm, Hmn, Hvm, Hvn.
  rewrite Hcm, Hcn, Hmeanp, Hmeanq, Hsdp, Hsdq.
  rewrite true_mean_scale, true_variance_scale, sqrt_scale by done.
  unfold uint_of_len. rewrite !length_fmap.
  rewrite fmap_last, <- Hlastp in Hlastq. cbn in Hlastq.
  injection Hlastq as ->. done.
Qed.

End Scale.

(** X10. In exact arithmetic the signals do not depend on the unit of the
    data: for every influence and threshold, a new detector seeded with a
    non-empty seed and fed a run of values, and one seeded and fed the same
    values all multiplied by a constant [k > 0], return the same
    signals. *)
Theorem signals_invariant_under_scale (k influence' threshold' : R)
    (seed vs : list R) :
  (0 < k)%R →
  seed ≠ [] →
  ∃ p q p' q' signals,
    Initialize NewPeakDetector influence' threshold' seed = Some (p, None)
    ∧ Initialize NewPeakDetector influence' threshold' (Rmult k <$> seed)
      = Some (q, None)
    ∧ NextBatch p vs = Some (p', signals)
    ∧ NextBatch q (Rmult k <$> vs) = Some (q', signals)
    ∧ length signals = length vs.
Proof.
  intros Hk Hseed.
  assert (Rmult k <$> seed ≠ []) as Hseed' by by destruct seed.
  destruct (Initialize_nonempty NewPeakDetector influence' threshold' seed
              Hseed) as (p & Hp & _).
  destruct (Initialize_nonempty NewPeakDetector influence' threshold'
              (Rmult k <$> seed) Hseed') as (q & Hq & _).
  pose proof (Initialize_scale _ _ _ _ _ _ Hk Hseed Hp Hq) as Hpq.
  pose proof (NewPeakDetector_Initialize_Ready _ _ _ _ Hp) as HRp.
  destruct (Next_seq_Ready vs p HRp) as (p' & signals & Hseq & _ & Hlen).
  destruct (Next_seq_scale k vs p q p' signals Hk Hpq Hseq) as (q' & Hseq').
  exists p, q, p', q', signals. rewrite !NextBatch_Next_seq. done.
Qed.

Lemma signals_invariant_under_scale_witness :
  (0 < 1000)%R
  ∧ [0; 1; 0; -1; 0]%R ≠ []
  ∧ ∃ p q p' q' signals,
      Initialize NewPeakDetector 0%R 5%R [0; 1; 0; -1; 0]%R = Some (p, None)
      ∧ Initialize NewPeakDetector 0%R 5%R
          (Rmult 1000 <$> [0; 1; 0; -1; 0]%R)
        = Some (q, None)
      ∧ NextBatch p [-500; 2]%R = Some (p', signals)
      ∧ NextBatch q (Rmult 1000 <$> [-500; 2]%R) = Some (q', signals)
      ∧ length signals = length [-500; 2]%R.
Proof.
  split; [lra|]. split; [discriminate|].
  apply (signals_invariant_under_scale 1000%R 0%R 5%R [0; 1; 0; -1; 0]%R
           [-500; 2]%R).
  - lra.
  - discriminate.
Defined.

(** ** Initializing a detector again *)

Section Again.
Context {F : Type} `{Arith F}.

(** Of the detector it is called on, a successful [Initialize] keeps the
    two counters only. *)
Lemma Initialize_counters_only (p q : peakDetector F)
    (influence' threshold' : F) (seed : list F) :
  seed ≠ [] →
  index p = index q → mIndex (stats p) = mIndex (stats q) →
  Initialize p influence' threshold' seed
  = Initialize q influence' threshold' seed.
Proof.
  intros Hseed Hidx Hcur. unfold Initialize, initialize.
  destruct (N.eqb_spec (uint_of_len seed) 0) as [Hz|_].
  { unfold uint_of_len in Hz. destruct seed; [done|]. cbn in Hz. lia. }
  destruct seed as [|first rest]; [done|].
  by rewrite Hidx, Hcur.
Qed.

End Again.

(** X11. A detector can be initialized again as if it were new after whole
    turns of its window: when a new detector seeded with [W] values (a
    length below [2^64]) has answered a number of values that is a multiple
    of [W], a call of [Initialize] with a non-empty seed leaves it in the
    state in which the same call leaves a new detector. *)
Theorem reinitialize_after_whole_turns {F : Type} {A : Arith F}
    (influence1 threshold1 influence2 threshold2 : F)
    (seed1 vs seed2 : list F) :
  seed1 ≠ [] →
  (uint_of_len seed1 < uint_modulus)%N →
  (N.of_nat (length vs) mod uint_of_len seed1 = 0)%N →
  seed2 ≠ [] →
  ∃ p p' signals q,
    Initialize NewPeakDetector influence1 threshold1 seed1 = Some (p, None)
    ∧ Next_seq p vs = Some (p', signals)
    ∧ Initialize p' influence2 threshold2 seed2 = Some (q, None)
    ∧ Initialize NewPeakDetector influence2 threshold2 seed2
      = Some (q, None).
Proof.
  intros Hseed1 Hmax Hturns Hseed2.
  destruct (Initialize_nonempty NewPeakDetector influence1 threshold1 seed1
              Hseed1)
    as (p & Hinit & Hstats & _ & _ & Hlag & Hidx & _).
  pose proof (NewPeakDetector_Initialize_Ready _ _ _ _ Hinit) as Hp.
  apply initialize_Some_inv in Hstats as (_ & HlenU & _ & Hcur & _).
  assert (counters p) as Hc by (split; [by rewrite Hidx, Hcur|congruence]).
  destruct (Next_seq_Ready vs p Hp) as (p' & signals & Hseq & _ & _).
  destruct (Next_seq_counters vs p p' signals Hp Hc) as
    ([Hidx' _] & _ & _ & _ & _ & Hidx2); [by rewrite Hlag|done|].
  rewrite Hidx, Hlag in Hidx2.
  change (index (@NewPeakDetector F A)) with 0%N in Hidx2.
  rewrite N.add_0_l, Hturns in Hidx2.
  destruct (Initialize_nonempty NewPeakDetector influence2 threshold2 seed2
              Hseed2) as (q & Hq & _).
  exists p, p', signals, q. split; [done|]. split; [done|]. split; [|done].
  rewrite <- Hq. apply Initialize_counters_only; [done|done|].
  by rewrite <- Hidx', Hidx2.
Qed.

Lemma reinitialize_after_whole_turns_witness :
  [1; 2; 3]%float ≠ []
  ∧ (uint_of_len [1; 2; 3]%float < uint_modulus)%N
  ∧ (N.of_nat (length [4; 5; 6]%float) mod uint_of_len [1; 2; 3]%float
     = 0)%N
  ∧ [7%float] ≠ []
  ∧ ∃ p p' signals q,
      Initialize NewPeakDetector 0%float 5%float [1; 2; 3]%float
      = Some (p, None)
      ∧ Next_seq p [4; 5; 6]%float = Some (p', signals)
      ∧ Initialize p' 1%float 2%float [7%float] = Some (q, None)
      ∧ Initialize NewPeakDetector 1%float 2%float [7%float]
        = Some (q, None).
Proof.
  split; [discriminate|]. split; [reflexivity|]. split; [reflexivity|].
  split; [discriminate|].
  apply (reinitialize_after_whole_turns 0%float 5%float 1%float 2%float
           [1; 2; 3]%float [4; 5; 6]%float [7%float]).
  - discriminate.
  - reflexivity.
  - reflexivity.
  - discriminate.
Defined.

(** ** The first recomputing detector and the current one *)

Section SimulationFirst.
Local Open Scope R_scope.

Variable Pow : R → R → R.
Hypothesis Pow_2 : ∀ x, Pow x 2 = x * x.

Lemma first_matches_Next (o : Legacy.peakDetector R) (p : peakDetector R)
    (v : R) :
  first_matches o p → (Legacy.lag o < uint_modulus)%N →
  ∃ o' p' s,
    Legacy.Next Pow o v = Some (o', s)
    ∧ Next p v = Some (p', s)
    ∧ first_matches o' p'
    ∧ Legacy.lag o' = Legacy.lag o.
Proof.
  intros (Hinf & Hthr & Hlag & Hlm & Hls & Hidx & Hcur & Hcache & Hmean
          & Hsd & Hval & Hp & Hex) Hmax.
  destruct (Next_folds p v Hp) as (p' & Hnext & Hnx & Hcache' & Hval').
  pose proof (Next_Ready _ _ _ _ Hp Hnext) as Hp'.
  assert (cache (stats p) ≠ []) as Hne.
  { rewrite Hcache. intros Hnil. rewrite Hnil in Hlag.
    unfold uint_of_len in Hlag. cbn in Hlag. lia. }
  pose proof (next_exact _ _ _ _ _ Hne Hex Hnx) as Hex'.
  pose proof (next_cursor _ _ _ _ Hnx) as (Hcur' & HlenU').
  destruct Hp as ((HlenU & _ & _) & _).
  assert (cacheLenU (stats p) = Legacy.lag o) as HW
    by (by rewrite HlenU, Hcache, Hlag).
  set (i' := if (uint_incr (Legacy.index o) =? Legacy.lag o)%N
             then 0%N else uint_incr (Legacy.index o)) in *.
  assert (i' < Legacy.lag o)%N as Hi'.
  { subst i'. rewrite uint_incr_wrap by done.
    apply N.mod_lt. lia. }
  assert (N.to_nat i' < length (Legacy.cache o))%nat as Hc'
    by (unfold uint_of_len in Hlag; lia).
  set (f := (classify p v).2) in *.
  assert (Legacy.Next Pow o v
          = Some ({| Legacy.index := i';
                     Legacy.influence := Legacy.influence o;
                     Legacy.lag := Legacy.lag o;
                     Legacy.cache := <[N.to_nat i' := f]> (Legacy.cache o);
                     Legacy.meanCache :=
                       <[N.to_nat i' :=
                           true_mean (<[N.to_nat i' := f]> (Legacy.cache o))]>
                         (Legacy.meanCache o);
                     Legacy.stdDevCache :=
                       <[N.to_nat i' :=
                           sqrt (true_variance
                                   (<[N.to_nat i' := f]> (Legacy.cache o)))]>
                         (Legacy.stdDevCache o);
                     Legacy.threshold := Legacy.threshold o |},
                  (classify p v).1)) as HNext.
  { unfold Legacy.Next. fold i'. rewrite Hmean, Hsd, Hval.
    cbn -[meanStdDev].
    subst f. rewrite classify_exact, Hinf, Hthr. unfold Rgtb.
    destruct (Rgt_dec (Rabs (v - prevMean p)) (threshold p * prevStdDev p));
      cbn -[meanStdDev]; rewrite !Legacy_store_Some by done;
      cbn -[meanStdDev]; rewrite (meanStdDev_true Pow Pow_2);
      rewrite !Legacy_store_Some by (by rewrite ?Hlm, ?Hls); cbn; [|done].
    by destruct (Rgt_dec v (prevMean p)). }
  eexists _, p', _. split; [exact HNext|]. split; [exact Hnext|].
  split; [|done].
  unfold first_matches. cbn. rewrite !length_insert.
  apply Next_Some_inv in Hnext as (_ & _ & _ & Hinf' & Hthr' & _).
  apply next_Some_inv in Hnx as (_ & _ & _ & Hm' & Hs' & _).
  destruct Hex' as (Hfl' & Hmean' & Hvar').
  assert (cache (stats p') = <[N.to_nat i' := f]> (Legacy.cache o)) as Hsame
    by (by rewrite Hcache', Hcache, Hcur).
  split; [congruence|]. split; [congruence|].
  split; [by unfold uint_of_len in *; rewrite length_insert|].
  split; [done|]. split; [done|]. split; [done|].
  split; [by rewrite Hcur', Hcur, HW|]. split; [done|].
  split.
  { rewrite list_lookup_insert_eq by (by rewrite Hlm).
    by rewrite Hm', Hmean', Hsame. }
  split.
  { rewrite list_lookup_insert_eq by (by rewrite Hls).
    rewrite Hs'. cbn. by rewrite Hvar', Hsame. }
  split; [by rewrite list_lookup_insert_eq, Hval' by done|].
  split; [done|]. by split.
Qed.

Lemma first_matches_Next_seq (vs : list R) (o : Legacy.peakDetector R)
    (p : peakDetector R) :
  first_matches o p → (Legacy.lag o < uint_modulus)%N →
  ∃ o' p' signals,
    Legacy.Next_seq Pow o vs = Some (o', signals)
    ∧ Next_seq p vs = Some (p', signals)
    ∧ first_matches o' p'.
Proof.
  revert o p. induction vs as [|v vs IH]; intros o p Hop Hmax.
  - by exists o, p, [].
  - destruct (first_matches_Next o p v Hop Hmax)
      as (o1 & p1 & s & Ho1 & Hp1 & Hop1 & Hlag1).
    destruct (IH o1 p1 Hop1) as (o2 & p2 & out & Ho2 & Hp2 & Hop2);
      [by rewrite Hlag1|].
    exists o2, p2, (s :: out). cbn. rewrite Ho1, Hp1. cbn.
    by rewrite Ho2, Hp2.
Qed.

Lemma first_matches_Initialize (o0 : Legacy.peakDetector R)
    (config : Legacy.Config R) (seed : list R) :
  seed ≠ [] → (uint_of_len seed < uint_modulus)%N →
  ∃ o p,
    Legacy.InitializeConfig Pow o0 config seed = Some (o, None)
    ∧ Initialize NewPeakDetector (Legacy.Influence config)
        (Legacy.Threshold config) seed
      = Some (p, None)
    ∧ first_matches o p
    ∧ Legacy.lag o = uint_of_len seed
    ∧ Legacy.index o = (uint_of_len seed - 1)%N
    ∧ Legacy.cache o = seed.
Proof.
  intros Hseed Hmax.
  destruct (Initialize_exact NewPeakDetector (Legacy.Influence config)
              (Legacy.Threshold config) seed Hseed)
    as (p & Hp & Hmean & Hsd & Hinf & Hthr & Hlast & Hcache & Hcur & Hex).
  pose proof (NewPeakDetector_Initialize_Ready _ _ _ _ Hp) as HRp.
  assert (0 < length seed)%nat as Hpos by (destruct seed; [done|cbn; lia]).
  assert ((uint_of_len seed =? 0)%N = false) as Hnz
    by (apply N.eqb_neq; unfold uint_of_len; lia).
  assert (N.to_nat (uint_of_len seed - 1) = pred (length seed)) as Hlast_idx
    by (unfold uint_of_len; lia).
  eexists _, p. split.
  { unfold Legacy.InitializeConfig.
    rewrite (meanStdDev_true Pow Pow_2), Hnz.
    rewrite !Legacy_store_Some by (rewrite length_replicate; lia).
    reflexivity. }
  split; [done|]. split; [|by cbn].
  unfold first_matches. cbn.
  rewrite !length_insert, !length_replicate.
  split; [done|]. split; [done|]. split; [done|].
  split; [done|]. split; [done|]. split; [unfold uint_of_len; lia|].
  split.
  { rewrite Hcur. cbn. rewrite uint_incr_wrap by (unfold uint_of_len in *; lia).
    replace (uint_of_len seed - 1 + 1)%N with (uint_of_len seed)
      by (unfold uint_of_len; lia).
    by rewrite N.Div0.mod_same. }
  split; [done|].
  rewrite !list_lookup_insert_eq by (rewrite length_replicate; lia).
  rewrite Hmean, Hsd. split; [done|]. split; [done|].
  split; [|by split].
  by rewrite Hlast_idx, <- last_lookup.
Qed.

End SimulationFirst.

(** X20. The first [Initialize], which takes a [Config], never returns an
    error and does not read [config.Lag] nor the detector it is called on:
    on an empty seed it panics (the assignment at [length-1]), and on a
    non-empty seed it takes the lag from the seed, stores the results of
    [meanStdDev] in the last slot and leaves the index there. *)
Theorem Legacy_InitializeConfig_outcomes {F : Type} {A : Arith F}
    (Pow : F → F → F) (p : Legacy.peakDetector F) (config : Legacy.Config F)
    (seed : list F) :
  (seed = [] → Legacy.InitializeConfig Pow p config seed = None)
  ∧ (seed ≠ [] →
     ∃ p', Legacy.InitializeConfig Pow p config seed = Some (p', None)
           ∧ Legacy.InitializeConfig Pow Legacy.NewPeakDetector
               {| Legacy.Lag := 0%N;
                  Legacy.Influence := Legacy.Influence config;
                  Legacy.Threshold := Legacy.Threshold config |} seed
             = Some (p', None)
           ∧ Legacy.lag p' = uint_of_len seed
           ∧ Legacy.index p' = (uint_of_len seed - 1)%N
           ∧ Legacy.cache p' = seed
           ∧ length (Legacy.meanCache p') = length seed
           ∧ length (Legacy.stdDevCache p') = length seed
           ∧ Legacy.meanCache p' !! pred (length seed)
             = Some (meanStdDev Pow seed).1
           ∧ Legacy.stdDevCache p' !! pred (length seed)
             = Some (meanStdDev Pow seed).2
           ∧ Legacy.influence p' = Legacy.Influence config
           ∧ Legacy.threshold p' = Legacy.Threshold config).
Proof.
  split.
  - intros ->. unfold Legacy.InitializeConfig.
    by destruct (meanStdDev Pow []).
  - intros Hseed.
    assert (0 < length seed)%nat as Hpos by (destruct seed; [done|cbn; lia]).
    assert ((uint_of_len seed =? 0)%N = false) as Hnz
      by (apply N.eqb_neq; unfold uint_of_len; lia).
    assert (N.to_nat (uint_of_len seed - 1) = pred (length seed)) as Hidx
      by (unfold uint_of_len; lia).
    unfold Legacy.InitializeConfig. rewrite Hnz.
    destruct (meanStdDev Pow seed) as [mean sd].
    rewrite !Legacy_store_Some by (rewrite length_replicate; lia).
    eexists. split; [reflexivity|]. cbn. split; [reflexivity|].
    rewrite !length_insert, !length_replicate, Hidx.
    rewrite !list_lookup_insert_eq by (rewrite length_replicate; lia).
    done.
Qed.

(** X21. In exact arithmetic (where [math.Pow(x, 2)] is [x * x]) the
    current detector returns the signals of the first recomputing detector:
    initialized with the same non-empty seed (a length below [2^64]),
    influence and threshold, and fed the same run of values, the two return
    the same signals. *)
Theorem current_agrees_with_first_detector (Pow : R → R → R)
    (config : Legacy.Config R) (seed vs : list R) :
  (∀ x, Pow x 2 = x * x)%R →
  seed ≠ [] →
  (uint_of_len seed < uint_modulus)%N →
  ∃ o p o' p' signals,
    Legacy.InitializeConfig Pow Legacy.NewPeakDetector config seed
    = Some (o, None)
    ∧ Initialize NewPeakDetector (Legacy.Influence config)
        (Legacy.Threshold config) seed
      = Some (p, None)
    ∧ Legacy.NextBatch Pow o vs = Some (o', signals)
    ∧ NextBatch p vs = Some (p', signals)
    ∧ length signals = length vs.
Proof.
  intros HPow Hseed Hmax.
  destruct (first_matches_Initialize Pow HPow Legacy.NewPeakDetector config
              seed Hseed Hmax) as (o & p & Ho & Hp & Hop & Hlag & _).
  destruct (first_matches_Next_seq Pow HPow vs o p Hop)
    as (o' & p' & signals & Hseq & Hseq' & _); [by rewrite Hlag|].
  exists o, p, o', p', signals.
  rewrite Legacy_NextBatch_Next_seq, NextBatch_Next_seq.
  split; [done|]. split; [done|]. split; [done|]. split; [done|].
  by eapply Next_seq_length.
Qed.

Lemma current_agrees_with_first_detector_witness :
  (∀ x, (λ x _ : R, x * x) x 2 = x * x)%R
  ∧ [1; 2; 3]%R ≠ []
  ∧ (uint_of_len [1; 2; 3]%R < uint_modulus)%N
  ∧ ∃ o p o' p' signals,
      Legacy.InitializeConfig (λ x _ : R, x * x)%R Legacy.NewPeakDetector
        {| Legacy.Lag := 3%N; Legacy.Influence := 0%R;
           Legacy.Threshold := 5%R |} [1; 2; 3]%R
      = Some (o, None)
      ∧ Initialize NewPeakDetector
          (Legacy.Influence {| Legacy.Lag := 3%N; Legacy.Influence := 0%R;
                               Legacy.Threshold := 5%R |})
          (Legacy.Threshold {| Legacy.Lag := 3%N; Legacy.Influence := 0%R;
                                Legacy.Threshold := 5%R |}) [1; 2; 3]%R
        = Some (p, None)
      ∧ Legacy.NextBatch (λ x _ : R, x * x)%R o [40; 5]%R
        = Some (o', signals)
      ∧ NextBatch p [40; 5]%R = Some (p', signals)
      ∧ length signals = length [40; 5]%R.
Proof.
  split; [reflexivity|]. split; [discriminate|]. split; [reflexivity|].
  apply (current_agrees_with_first_detector (λ x _ : R, x * x)%R
           {| Legacy.Lag := 3%N; Legacy.Influence := 0%R;
              Legacy.Threshold := 5%R |} [1; 2; 3]%R [40; 5]%R).
  - reflexivity.
  - discriminate.
  - reflexivity.
Defined.
